(** * Cache simulator: a shallow embedding of [cache.py] and [simulator.py]

    The development follows the Python sources of the cache simulator:
    - [Cache] (a [dict] subclass mapping set indices to lists of blocks,
      with a global recency list and an [is_l2] flag) and its methods
      [mark_ref_as_last_seen], [is_hit], [replace_block], [set_block],
      [read_refs] and [get_block];
    - [Simulator.run_simulation], which derives the configuration, builds
      the references and the caches and runs the two passes.

    Python exceptions are modelled by the [result] monad; in-place mutation
    of the caches and of the reference objects is modelled by explicit
    state passing. *)

From Stdlib Require Import ZArith NArith Lia.
From stdpp Require Import base option list strings gmap fin_maps sorting pretty.

Local Open Scope string_scope.
Local Open Scope list_scope.

(** ** Python results: a value or a raised exception *)

Inductive PyExn : Type :=
  | KeyError
  | IndexError
  | ValueError
  | ZeroDivisionError
  | InvalidConfiguration.

Inductive result (A : Type) : Type :=
  | Ok (a : A)
  | Raise (e : PyExn).
Arguments Ok {A} a.
Arguments Raise {A} e.

#[global] Instance result_ret : MRet result := fun A a => Ok a.
#[global] Instance result_bind : MBind result := fun A B f m =>
  match m with
  | Ok a => f a
  | Raise e => Raise e
  end.

(** What a Python call hands back to its caller: [None] or an integer. *)
Inductive PyValue : Type :=
  | PyNone
  | PyInt (z : Z).

(** ** Binary addresses *)

Fixpoint bin_pos (p : positive) : string :=
  match p with
  | xH => "1"
  | xO q => bin_pos q +:+ "0"
  | xI q => bin_pos q +:+ "1"
  end.

(** [bin(n)[2:]] for a non-negative [n]. *)
Definition bin (n : N) : string :=
  match n with
  | N0 => "0"
  | Npos p => bin_pos p
  end.

Fixpoint zeros (k : nat) : string :=
  match k with
  | O => EmptyString
  | S k' => "0" +:+ zeros k'
  end.

(** [str.zfill(width)]: pad on the left with zeros up to [width]. *)
Definition zfill (width : Z) (s : string) : string :=
  zeros (Z.to_nat (width - Z.of_nat (String.length s))) +:+ s.

(** Modelled from the spec: [bin_addr.py] and [word_addr.py] are missing
    from the sources. A binary address is the binary representation of a
    word address, of [num_addr_bits] width (spec 4.1, 4.2); the set index
    of the one-set cache is the string "0". *)
Definition BinaryAddress (word_addr : N) (num_addr_bits : Z) : string :=
  zfill num_addr_bits (bin word_addr).

Definition nonempty (s : string) : option string :=
  if decide (s = EmptyString) then None else Some s.

(** ** References *)

Inductive ReferenceCacheStatus : Type :=
  | miss
  | hit.

(** A reference object. [status_writes] is a ghost field: it counts the
    assignments to [cache_status] made on this object, so that "written
    once" can be stated; the program never reads it. *)
Record Reference : Type := mkReference {
  word_addr : N;
  bin_addr : string;
  offset : option string;
  index : option string;
  tag : option string;
  cache_status : option ReferenceCacheStatus;
  status_writes : nat
}.

(** Modelled from the spec: [reference.py] is missing from the sources.
    The address is sliced into offset (low bits), index (next bits) and
    tag (remaining high bits); a field of zero width is undefined; the
    construction fails when the tag width would be negative or the address
    does not fit [num_addr_bits] (spec 4.1). *)
Definition Reference_init (w : N)
    (num_addr_bits num_offset_bits num_index_bits num_tag_bits : Z)
    : result Reference :=
  let b := BinaryAddress w num_addr_bits in
  let len := String.length b in
  let off := Z.to_nat num_offset_bits in
  let idx := Z.to_nat num_index_bits in
  if bool_decide (num_tag_bits < 0)%Z then Raise InvalidConfiguration
  else if bool_decide (num_addr_bits < Z.of_nat len)%Z then Raise InvalidConfiguration
  else Ok {| word_addr := w;
             bin_addr := b;
             offset := nonempty (String.substring (len - off) off b);
             index := nonempty (String.substring (len - off - idx) idx b);
             tag := nonempty (String.substring 0 (len - off - idx) b);
             cache_status := None;
             status_writes := 0 |}.

(** [ref.cache_status = s] *)
Definition set_cache_status (s : ReferenceCacheStatus) (ref : Reference) : Reference :=
  {| word_addr := word_addr ref;
     bin_addr := bin_addr ref;
     offset := offset ref;
     index := index ref;
     tag := tag ref;
     cache_status := Some s;
     status_writes := S (status_writes ref) |}.

(** ** Block entries *)

(** A cache entry: the dict [{tag, index, data}]. *)
Record Block : Type := mkBlock {
  block_tag : option string;
  block_index : option string;
  block_data : list N
}.

#[global] Instance Block_eq_dec : EqDecision Block.
Proof. solve_decision. Defined.

(** Modelled from the spec: [Reference.get_cache_entry] is missing from the
    sources. The materialized block entry of a reference carries the
    reference's tag and index and the words of its block (spec 3, "Block
    entry"); the words are the [num_words_per_block] consecutive words of
    the aligned block that contains the address. *)
Definition get_cache_entry (ref : Reference) (num_words_per_block : Z) : Block :=
  let w := Z.of_N (word_addr ref) in
  let base := (w - w `mod` num_words_per_block)%Z in
  {| block_tag := tag ref;
     block_index := index ref;
     block_data :=
       (fun i => Z.to_N (base + Z.of_nat i)) <$> seq 0 (Z.to_nat num_words_per_block) |}.

(** ** The cache store *)

Definition AddrId : Type := option string * option string.

(** A [Cache] object: the dict itself ([sets]) and its two attributes. *)
Record Cache : Type := mkCache {
  sets : gmap string (list Block);
  recently_used_addrs : list AddrId;
  is_l2 : bool
}.

(** [Cache(num_sets=..., num_index_bits=..., is_l2=...)] *)
Definition Cache_init (num_sets : Z) (num_index_bits : Z) (l2 : bool) : Cache :=
  {| sets := foldl (fun m i => <[BinaryAddress (N.of_nat i) num_index_bits := []]> m)
                   ∅ (seq 0 (Z.to_nat num_sets));
     recently_used_addrs := [];
     is_l2 := l2 |}.

(** [list.remove(x)]: drops the first occurrence. *)
Fixpoint list_remove_first (x : AddrId) (l : list AddrId) : list AddrId :=
  match l with
  | [] => []
  | y :: l' => if decide (y = x) then l' else y :: list_remove_first x l'
  end.

Definition mark_ref_as_last_seen (ref : Reference) (self : Cache) : Cache :=
  let addr_id := (index ref, tag ref) in
  let l := recently_used_addrs self in
  let l1 := if bool_decide (addr_id ∈ l) then list_remove_first addr_id l else l in
  {| sets := sets self;
     recently_used_addrs := l1 ++ [addr_id];
     is_l2 := is_l2 self |}.

(** The loop [for block in blocks: if block["tag"] == addr_tag: ...]. *)
Definition has_tag (addr_tag : option string) (block : Block) : bool :=
  bool_decide (block_tag block = addr_tag).

Definition is_hit (self : Cache) (addr_index addr_tag : option string) : result bool :=
  match addr_index with
  | None =>
      match sets self !! "0" with
      | Some blocks => Ok (existsb (has_tag addr_tag) blocks)
      | None => Raise KeyError
      end
  | Some k =>
      match sets self !! k with
      | Some blocks => Ok (existsb (has_tag addr_tag) blocks)
      | None => Ok false
      end
  end.

Definition get_block (self : Cache) (addr_index addr_tag : option string) : option Block :=
  match addr_index with
  | None => None
  | Some k =>
      match sets self !! k with
      | Some blocks => find (has_tag addr_tag) blocks
      | None => None
      end
  end.

(** [self["0"]] for an undefined index, [self[addr_index]] otherwise: the
    key that [is_hit] and [set_block] look up. *)
Definition target_key (addr_index : option string) : string :=
  match addr_index with
  | None => "0"
  | Some k => k
  end.

(** The effect of mutating in place the list stored under key [k]. *)
Definition store_blocks (k : string) (blocks : list Block) (self : Cache) : Cache :=
  {| sets := <[k := blocks]> (sets self);
     recently_used_addrs := recently_used_addrs self;
     is_l2 := is_l2 self |}.

(** The inner loop of [replace_block]: overwrite the first block whose
    tag is [recent_tag]; [None] when no block matches. *)
Fixpoint replace_first (recent_tag : option string) (new_entry : Block)
    (blocks : list Block) : option (list Block) :=
  match blocks with
  | [] => None
  | block :: rest =>
      if bool_decide (block_tag block = recent_tag) then Some (new_entry :: rest)
      else cons block <$> replace_first recent_tag new_entry rest
  end.

(** The outer loop of [replace_block] over the chosen scan order. *)
Fixpoint replace_scan (recents : list AddrId) (addr_index : option string)
    (new_entry : Block) (blocks : list Block) : list Block :=
  match recents with
  | [] => blocks
  | (recent_index, recent_tag) :: recents' =>
      if bool_decide (recent_index = addr_index) then
        match replace_first recent_tag new_entry blocks with
        | Some blocks' => blocks'
        | None => replace_scan recents' addr_index new_entry blocks
        end
      else replace_scan recents' addr_index new_entry blocks
  end.

(** [replace_block]: the list [blocks] after the call. No method of the
    program calls it. *)
Definition replace_block (self : Cache) (blocks : list Block)
    (replacement_policy : string) (addr_index : option string)
    (new_entry : Block) : list Block :=
  let recents :=
    if bool_decide (replacement_policy = "mru")
    then reverse (recently_used_addrs self)
    else recently_used_addrs self in
  replace_scan recents addr_index new_entry blocks.

(** Truth value of [l2_cache] in [if l2_cache and ...]: [None] is false,
    and a [Cache] is a dict, false exactly when it has no key. *)
Definition truthy (l2_cache : option Cache) : bool :=
  match l2_cache with
  | None => false
  | Some l2 => negb (bool_decide (sets l2 = ∅))
  end.
Arguments truthy : simpl never.

(** [set_block] called without [l2_cache], as the nested call
    [l2_cache.set_block(...)] is: the write-back branch is dead. *)
Definition set_block_last (replacement_policy : string) (num_blocks_per_set : Z)
    (addr_index : option string) (new_entry : Block) (self : Cache) : result Cache :=
  match sets self !! target_key addr_index with
  | None => Raise KeyError
  | Some blocks =>
      if bool_decide (Z.of_nat (length blocks) = num_blocks_per_set) then
        match blocks with
        | [] => Raise IndexError
        | evicted_entry :: blocks' =>
            Ok (store_blocks (target_key addr_index) (blocks' ++ [new_entry]) self)
        end
      else Ok (store_blocks (target_key addr_index) (blocks ++ [new_entry]) self)
  end.

(** [set_block]: the cache, the next level and the list of entries handed
    to [l2_cache.set_block] (the eviction write-backs of this call). *)
Definition set_block (replacement_policy : string) (num_blocks_per_set : Z)
    (addr_index : option string) (new_entry : Block)
    (l2_cache : option Cache) (self : Cache)
    : result (Cache * option Cache * list Block) :=
  match sets self !! target_key addr_index with
  | None => Raise KeyError
  | Some blocks =>
      if bool_decide (Z.of_nat (length blocks) = num_blocks_per_set) then
        match blocks with
        | [] => Raise IndexError
        | evicted_entry :: blocks' =>
            let self' := store_blocks (target_key addr_index) (blocks' ++ [new_entry]) self in
            match l2_cache with
            | Some l2 =>
                if truthy l2_cache && negb (is_l2 self) then
                  l2' ← set_block_last replacement_policy num_blocks_per_set
                          (block_index evicted_entry) evicted_entry l2;
                  Ok (self', Some l2', [evicted_entry])
                else Ok (self', l2_cache, [])
            | None => Ok (self', None, [])
            end
        end
      else Ok (store_blocks (target_key addr_index) (blocks ++ [new_entry]) self,
               l2_cache, [])
  end.

(** The body of the loop of [read_refs], for one reference. *)
Definition read_ref (num_blocks_per_set num_words_per_block : Z)
    (replacement_policy : string) (ref : Reference)
    (self : Cache) (l2_cache : option Cache)
    : result (Reference * Cache * option Cache) :=
  let self := mark_ref_as_last_seen ref self in
  h ← is_hit self (index ref) (tag ref);
  if h : bool then Ok (set_cache_status hit ref, self, l2_cache)
  else
    let ref := set_cache_status miss ref in
    '(self, l2_cache, _) ← set_block replacement_policy num_blocks_per_set
                             (index ref) (get_cache_entry ref num_words_per_block)
                             l2_cache self;
    match l2_cache with
    | Some l2 =>
        if truthy l2_cache then
          h2 ← is_hit l2 (index ref) (tag ref);
          if h2 : bool then Ok (ref, self, l2_cache)
          else
            l2' ← set_block_last replacement_policy num_blocks_per_set
                    (index ref) (get_cache_entry ref num_words_per_block) l2;
            Ok (ref, self, Some l2')
        else Ok (ref, self, l2_cache)
    | None => Ok (ref, self, None)
    end.

(** [read_refs]: the references, the cache and the next level after the
    loop, and the value the call returns. The function has no [return]
    statement. *)
Fixpoint read_refs (num_blocks_per_set num_words_per_block : Z)
    (replacement_policy : string) (refs : list Reference)
    (l2_cache : option Cache) (self : Cache)
    : result (list Reference * Cache * option Cache * PyValue) :=
  match refs with
  | [] => Ok ([], self, l2_cache, PyNone)
  | ref :: refs' =>
      '(ref1, self1, l2_cache1) ←
        read_ref num_blocks_per_set num_words_per_block replacement_policy
                 ref self l2_cache;
      '(refs1, self2, l2_cache2, v) ←
        read_refs num_blocks_per_set num_words_per_block replacement_policy
                  refs' l2_cache1 self1;
      Ok (ref1 :: refs1, self2, l2_cache2, v)
  end.

(** ** The simulator *)

(** [a // b] on Python integers. *)
Definition floordiv (a b : Z) : result Z :=
  if bool_decide (b = 0)%Z then Raise ZeroDivisionError else Ok (a / b)%Z.

(** [int(math.log2(x))]: the integer part of the binary logarithm, taken
    exactly. The code takes the logarithm in floating point, which for
    large arguments (from [2^49 - 1] on) can round up to the next
    integer; this definition does not follow that rounding, and is the
    code's value only below such arguments. *)
Definition int_log2 (x : Z) : result Z :=
  if bool_decide (x <= 0)%Z then Raise ValueError else Ok (Z.log2 x).

(** [max(word_addrs)] *)
Definition max_word_addr (word_addrs : list N) : result Z :=
  match word_addrs with
  | [] => Raise ValueError
  | w :: ws => Ok (Z.of_N (foldl N.max w ws))
  end.

Fixpoint get_addr_refs (word_addrs : list N)
    (num_addr_bits num_offset_bits num_index_bits num_tag_bits : Z)
    : result (list Reference) :=
  match word_addrs with
  | [] => Ok []
  | w :: ws =>
      r ← Reference_init w num_addr_bits num_offset_bits num_index_bits num_tag_bits;
      rs ← get_addr_refs ws num_addr_bits num_offset_bits num_index_bits num_tag_bits;
      Ok (r :: rs)
  end.

(** What [run_simulation] displays: the references and caches after the
    run with L2, and after the run with L1 only, with the two totals. *)
Record SimulationOutput : Type := mkSimulationOutput {
  refs_with_l2 : list Reference;
  l1_cache : Cache;
  l2_cache_out : Cache;
  total_cycles_with_l2 : PyValue;
  refs_with_l1_only : list Reference;
  l1_cache_only : Cache;
  total_cycles_with_l1_only : PyValue
}.

Definition run_simulation (num_blocks_per_set num_words_per_block cache_size : Z)
    (replacement_policy : string) (num_addr_bits : Z) (word_addrs : list N)
    : result SimulationOutput :=
  num_blocks ← floordiv cache_size num_words_per_block;
  num_sets ← floordiv num_blocks num_blocks_per_set;
  m ← max_word_addr word_addrs;
  lg ← int_log2 m;
  let num_addr_bits := Z.max num_addr_bits (lg + 1) in
  num_offset_bits ← int_log2 num_words_per_block;
  num_index_bits ← int_log2 num_sets;
  let num_tag_bits := (num_addr_bits - num_index_bits - num_offset_bits)%Z in
  refs ← get_addr_refs word_addrs num_addr_bits num_offset_bits num_index_bits num_tag_bits;
  let l1 := Cache_init num_sets num_index_bits false in
  let l2 := Cache_init num_sets num_index_bits true in
  '(refs1, l1', l2', total1) ←
    read_refs num_blocks_per_set num_words_per_block replacement_policy refs (Some l2) l1;
  let l1o := Cache_init num_sets num_index_bits false in
  '(refs2, l1o', _, total2) ←
    read_refs num_blocks_per_set num_words_per_block replacement_policy refs1 None l1o;
  Ok {| refs_with_l2 := refs1;
        l1_cache := l1';
        l2_cache_out := default l2 l2';
        total_cycles_with_l2 := total1;
        refs_with_l1_only := refs2;
        l1_cache_only := l1o';
        total_cycles_with_l1_only := total2 |}.

(** Tags of the blocks of the set under key [k], in order. *)
Definition set_tags (self : Cache) (k : string) : list (option string) :=
  block_tag <$> default [] (sets self !! k).

(** The statuses recorded in the references, in order. *)
Definition statuses (refs : list Reference) : list (option ReferenceCacheStatus) :=
  cache_status <$> refs.

(** The victim as the specification words it: scan the recency list in
    the order of the policy; the first pair for which the target set has
    a block with that index and tag designates the victim, the first
    such block. *)
Definition selectVictim_spec (self : Cache) (blocks : list Block)
    (policy : string) : option Block :=
  let scan :=
    if bool_decide (policy = "mru")
    then reverse (recently_used_addrs self)
    else recently_used_addrs self in
  let matches (p : AddrId) (b : Block) : bool :=
    bool_decide (block_index b = p.1) && bool_decide (block_tag b = p.2) in
  head (omap (fun p => find (matches p) blocks) scan).

(** ** Displaying a cache *)

(** The table that [display_cache] builds and prints: the arguments it
    passes to [Table(...)], the title and the header it assigns, and the
    rows it appends. The class [Table] itself is not part of the sources
    at hand; all that is taken of it is what [display_cache] relies on:
    the constructor returns an object whose [header] and [rows] are lists,
    [rows] empty at first, and printing it returns. *)
Record Table : Type := mkTable {
  num_cols : Z;
  width : Z;
  alignment : string;
  title : string;
  header : list string;
  rows : list (list string)
}.

(** The order of [sorted] on the keys: strings compare character by
    character. *)
Definition key_le (a b : string * list Block) : Prop :=
  String.leb a.1 b.1 = true.

#[global] Instance key_le_dec : RelDecision key_le.
Proof. intros a b. unfold key_le. apply _. Defined.

(** The sets of the cache in the order of [sorted(cache.keys())], each
    key with [cache[key]]. *)
Definition sorted_sets (cache : Cache) : list (string * list Block) :=
  merge_sort key_le (map_to_list (sets cache)).

(** [max(len(cache[index]) for index in cache_set_names)] *)
Definition max_len (ls : list (list Block)) : result nat :=
  match ls with
  | [] => Raise ValueError
  | x :: xs => Ok (foldl Nat.max (length x) (length <$> xs))
  end.

(** The cell of row [i] for a set: the words of its block [i], joined by
    commas, or the empty string when the set has no block [i]. *)
Definition block_cell (i : nat) (blocks : list Block) : string :=
  match blocks !! i with
  | Some block => String.concat "," (pretty <$> block_data block)
  | None => EmptyString
  end.

Definition display_cache (cache : Cache) (table_width : Z) : result Table :=
  let cache_sets := sorted_sets cache in
  let cache_set_names := cache_sets.*1 in
  let num_sets := Z.of_nat (length cache_set_names) in
  max_blocks ← max_len (cache_sets.*2);
  Ok {| num_cols := if bool_decide (1 < num_sets)%Z then num_sets else 1%Z;
        width := table_width;
        alignment := "center";
        title := if is_l2 cache then "L2 Cache" else "L1 Cache";
        header := if bool_decide (1 < num_sets)%Z then cache_set_names
                  else ["Set"];
        rows := (fun i => block_cell i <$> cache_sets.*2) <$> seq 0 max_blocks |}.

(** ** Predicates and invariants of the statements *)

(** "The total of the run with L2 is at most the total of the run with L1
    only", for the two values that [run_simulation] reports. *)
Definition totals_ordered (o : SimulationOutput) : Prop :=
  ∃ a b : Z, total_cycles_with_l2 o = PyInt a
             ∧ total_cycles_with_l1_only o = PyInt b
             ∧ (a <= b)%Z.

(** Two reference objects for the same address. *)
Definition same_addr (r1 r2 : Reference) : Prop :=
  word_addr r1 = word_addr r2 ∧ index r1 = index r2 ∧ tag r1 = tag r2.

(** The list after [set_block] has run on it: the first element is popped
    when the list holds exactly [n] elements, then [x] is appended. *)
Definition pushed {A : Type} (n : Z) (l : list A) (x : A) : list A :=
  (if bool_decide (Z.of_nat (length l) = n) then tail l else l) ++ [x].

(** No set of the store holds more than [n] blocks. *)
Definition within_capacity (n : Z) (c : Cache) : Prop :=
  ∀ k blocks, sets c !! k = Some blocks → (Z.of_nat (length blocks) <= n)%Z.

(** The store as the constructor leaves it: every set is empty. *)
Definition all_sets_empty (c : Cache) : Prop :=
  ∀ k blocks, sets c !! k = Some blocks → blocks = [].

(** The stores that sequences of insertions with a fixed number of blocks
    per set lead to: starting from a store (and an optional next level)
    whose sets are empty, as the constructor makes them, by calls of
    [set_block] on the store and by direct insertions in the next level. *)
Inductive insert_reachable (n : Z) : Cache → option Cache → Prop :=
  | reach_fresh self l2 :
      all_sets_empty self →
      from_option all_sets_empty True l2 →
      insert_reachable n self l2
  | reach_set_block p i b self l2 self' l2' wb :
      insert_reachable n self l2 →
      set_block p n i b l2 self = Ok (self', l2', wb) →
      insert_reachable n self' l2'
  | reach_fill p i b self l2 l2' :
      insert_reachable n self (Some l2) →
      set_block_last p n i b l2 = Ok l2' →
      insert_reachable n self (Some l2').

(** Every tag that is in both lists is at least as close to the front in
    [t2] as in [t1]. *)
Definition pos_le {A : Type} (t1 t2 : list A) : Prop :=
  ∀ i j x, t1 !! i = Some x → t2 !! j = Some x → (j ≤ i)%nat.

(** The invariant that ties the tags [t1] of a set of L1 to the tags [t2]
    of the set of L2 with the same index. Either the two sets hold the
    same tags in the same order, or (when L1 writes its evictions back)
    both sets are full and [pos_le] holds: the block that L1 evicts next,
    its first, can only be the first of L2, which the write-back pops. *)
Definition set_inv {A : Type} (wbmode : bool) (n : Z) (t1 t2 : list A) : Prop :=
  NoDup t1 ∧ NoDup t2
  ∧ (t2 = t1
     ∨ (wbmode = true ∧ Z.of_nat (length t1) = n
        ∧ length t2 = length t1 ∧ pos_le t1 t2)).

(** The tags of the blocks of every set of the store are pairwise
    distinct. *)
Definition tags_distinct (c : Cache) : Prop :=
  ∀ k blocks, sets c !! k = Some blocks → NoDup (block_tag <$> blocks).

(** Every block sits in the set that its own index designates. *)
Definition index_ok (self : Cache) : Prop :=
  ∀ k blocks b,
    sets self !! k = Some blocks → b ∈ blocks → target_key (block_index b) = k.

(** The invariant of an L1 store with its attached next level. *)
Definition hier_inv (n : Z) (self c : Cache) : Prop :=
  index_ok self
  ∧ ∀ k, set_inv (negb (is_l2 self)) n (set_tags self k) (set_tags c k).

(** ** Example stores and references *)

(** A one-set store holding the block of tag 101. *)
Definition fully_assoc_demo : Cache :=
  {| sets := {[ "0" := [mkBlock (Some "101") None [5%N]] ]};
     recently_used_addrs := [(None, Some "101")];
     is_l2 := false |}.

(** A reference with the given address fields, not yet processed. *)
Definition ref_of (w : N) (i t : option string) : Reference :=
  {| word_addr := w; bin_addr := bin w; offset := None;
     index := i; tag := t; cache_status := None; status_writes := 0 |}.

Definition blk (t : string) (w : N) : Block :=
  {| block_tag := Some t; block_index := None; block_data := [w] |}.

(** The one-set, two-way L1 store when address 7 of the sequence 5, 6, 5,
    7 is about to be inserted: it holds 5 then 6, and 6 is the least
    recently used. *)
Definition lru_demo_l1 : Cache :=
  {| sets := {[ "0" := [blk "101" 5; blk "110" 6] ]};
     recently_used_addrs :=
       [(None, Some "110"); (None, Some "101"); (None, Some "111")];
     is_l2 := false |}.

Definition lru_demo_l2 : Cache :=
  {| sets := {[ "0" := [blk "101" 5; blk "110" 6] ]};
     recently_used_addrs := [];
     is_l2 := true |}.

(** The state just before the insertion made for the last of the given
    addresses, in a run of the one-set, two-way configuration. *)
Definition before_last_insert (p : string) (word_addrs : list N)
    : result (Cache * option Cache * Block) :=
  refs ← get_addr_refs word_addrs 3 0 0 3;
  match reverse refs with
  | [] => Raise ValueError
  | r :: rs =>
      '(_, l1, l2, _) ← read_refs 2 1 p (reverse rs)
                          (Some (Cache_init 1 0 true)) (Cache_init 1 0 false);
      Ok (mark_ref_as_last_seen r l1, l2, get_cache_entry r 1)
  end.

(** The direct-mapped four-set hierarchy after address 0 was read. *)
Definition direct_demo_block : Block :=
  {| block_tag := Some "0"; block_index := Some "00"; block_data := [0%N] |}.

Definition direct_demo_l1 : Cache :=
  store_blocks "00" [direct_demo_block] (Cache_init 4 2 false).

Definition direct_demo_l2 : Cache :=
  store_blocks "00" [direct_demo_block] (Cache_init 4 2 true).

(** The one-set, two-way hierarchy after the addresses 5, 6, 5, 7. *)
Definition two_way_refs : list Reference :=
  [ref_of 5 None (Some "101"); ref_of 6 None (Some "110");
   ref_of 5 None (Some "101"); ref_of 7 None (Some "111")].

(** ** Further definitions for the properties of the code *)

(** The (index, tag) identities of a list of references, in order. *)
Definition ids (refs : list Reference) : list AddrId :=
  (fun r => (index r, tag r)) <$> refs.

(** Successive calls [self.set_block(policy, n, addr_index, b)] for the
    blocks [b] of a list, in order, without next level. *)
Fixpoint insert_all (replacement_policy : string) (num_blocks_per_set : Z)
    (addr_index : option string) (bs : list Block) (self : Cache)
    : result Cache :=
  match bs with
  | [] => Ok self
  | b :: bs' =>
      '(self', _, _) ← set_block replacement_policy num_blocks_per_set
                         addr_index b None self;
      insert_all replacement_policy num_blocks_per_set addr_index bs' self'
  end.

(** The recency list in the order in which [replace_block] scans it. *)
Definition scan_order (self : Cache) (replacement_policy : string) : list AddrId :=
  if bool_decide (replacement_policy = "mru")
  then reverse (recently_used_addrs self)
  else recently_used_addrs self.

(** The blocks of the set under key [k]; none when there is no such set. *)
Definition blocks_of (c : Cache) (k : string) : list Block :=
  default [] (sets c !! k).

(** The next level [c] holds, set by set, the blocks of [self]. *)
Definition mirrors (self c : Cache) : Prop :=
  ∀ k, blocks_of c k = blocks_of self k.

(** The set and tag that a reference addresses. *)
Definition addressed (r : Reference) : string * option string :=
  (target_key (index r), tag r).

(** ** Basic facts *)

Section Basics.

Lemma bind_Ok {A B : Type} (m : result A) (f : A → result B) (b : B) :
  m ≫= f = Ok b → ∃ a, m = Ok a ∧ f a = Ok b.
Proof. destruct m as [a|e]; simpl; [eauto | discriminate]. Qed.

Lemma existsb_has_tag (t : option string) (blocks : list Block) :
  existsb (has_tag t) blocks = true ↔ t ∈ (block_tag <$> blocks).
Proof.
  rewrite existsb_exists, list_elem_of_fmap. unfold has_tag.
  split.
  - intros (b & Hin & Hb). apply bool_decide_eq_true in Hb.
    exists b. split; [done | by apply list_elem_of_In].
  - intros (b & -> & Hin). exists b.
    split; [by apply list_elem_of_In | by apply bool_decide_eq_true].
Qed.

Lemma existsb_has_tag_false (t : option string) (blocks : list Block) :
  existsb (has_tag t) blocks = false ↔ t ∉ (block_tag <$> blocks).
Proof.
  rewrite <- existsb_has_tag. destruct (existsb _ _); intuition congruence.
Qed.

Lemma list_remove_first_notin (x : AddrId) (l : list AddrId) :
  x ∉ l → list_remove_first x l = l.
Proof.
  induction l as [|y l IH]; [done|].
  intros Hn. apply not_elem_of_cons in Hn as [Hne Hn]. simpl.
  destruct (decide (y = x)); [congruence | by rewrite IH].
Qed.

Lemma list_remove_first_subseteq (x : AddrId) (l : list AddrId) :
  list_remove_first x l ⊆ l.
Proof.
  induction l as [|y l IH]; [done|]. simpl. intros z Hz.
  destruct (decide (y = x)).
  - by apply list_elem_of_further.
  - apply elem_of_cons in Hz as [->|Hz]; [apply list_elem_of_here|].
    apply list_elem_of_further. by apply IH.
Qed.

Lemma list_remove_first_NoDup (x : AddrId) (l : list AddrId) :
  NoDup l → NoDup (list_remove_first x l) ∧ x ∉ list_remove_first x l.
Proof.
  induction 1 as [|y l Hy Hl IH]; simpl.
  - split; [constructor | apply not_elem_of_nil].
  - destruct (decide (y = x)) as [->|Hne]; [done|].
    destruct IH as [IH1 IH2]. split.
    + constructor; [|done].
      intros Hin. by apply list_remove_first_subseteq in Hin.
    + apply not_elem_of_cons. split; [congruence | done].
Qed.

Lemma mark_recently_used (ref : Reference) (self : Cache) :
  recently_used_addrs (mark_ref_as_last_seen ref self)
  = list_remove_first (index ref, tag ref) (recently_used_addrs self)
      ++ [(index ref, tag ref)].
Proof.
  unfold mark_ref_as_last_seen. simpl. case_bool_decide as Hin; [done|].
  by rewrite list_remove_first_notin.
Qed.

Lemma mark_sets (ref : Reference) (self : Cache) :
  sets (mark_ref_as_last_seen ref self) = sets self.
Proof. done. Qed.

Lemma mark_is_l2 (ref : Reference) (self : Cache) :
  is_l2 (mark_ref_as_last_seen ref self) = is_l2 self.
Proof. done. Qed.

(** [set_block] without a next level is [set_block_last]. *)
Lemma set_block_no_l2 (p : string) (n : Z) (i : option string)
    (b : Block) (self : Cache) :
  set_block p n i b None self
  = (self' ← set_block_last p n i b self; Ok (self', None, [])).
Proof.
  unfold set_block, set_block_last.
  destruct (sets self !! target_key i) as [blocks|]; [|done].
  case_bool_decide; [|done]. by destruct blocks.
Qed.

End Basics.

(** ** The runs that the specification gives as examples *)

(** Direct-mapped, four sets: the second round over 0..3 hits. *)
Example run_direct_mapped :
  (fun o => statuses (refs_with_l1_only o))
    <$> (match run_simulation 1 1 4 "lru" 1 [0; 1; 2; 3; 0; 1; 2; 3]%N with
         | Ok o => Some o
         | Raise _ => None
         end)
  = Some [Some miss; Some miss; Some miss; Some miss;
          Some hit; Some hit; Some hit; Some hit].
Proof. vm_compute. reflexivity. Qed.

(** One set of two blocks: 5, 6, 5, 7, 5. *)
Example run_fully_associative :
  (fun o => statuses (refs_with_l1_only o))
    <$> (match run_simulation 2 1 2 "lru" 1 [5; 6; 5; 7; 5]%N with
         | Ok o => Some o
         | Raise _ => None
         end)
  = Some [Some miss; Some miss; Some hit; Some miss; Some miss].
Proof. vm_compute. reflexivity. Qed.

(** ** Lookups: [is_hit] and [get_block] *)

(** Claim C9. An index value that is not a key of the store is a clean
    miss: [is_hit] returns [False] and [get_block] returns [None], for
    every tag, and neither raises. *)
Theorem is_hit_get_block_absent_index (self : Cache) (k : string)
    (addr_tag : option string) :
  sets self !! k = None →
  is_hit self (Some k) addr_tag = Ok false
  ∧ get_block self (Some k) addr_tag = None.
Proof.
  intros Hk. unfold is_hit, get_block. by rewrite Hk.
Qed.

(** The statement above, at a concrete store. *)
Lemma is_hit_get_block_absent_index_witness :
  sets (Cache_init 4 2 false) !! "111" = None
  ∧ is_hit (Cache_init 4 2 false) (Some "111") (Some "01") = Ok false
  ∧ get_block (Cache_init 4 2 false) (Some "111") (Some "01") = None.
Proof.
  split; [reflexivity|].
  apply (is_hit_get_block_absent_index (Cache_init 4 2 false) "111" (Some "01")).
  reflexivity.
Defined.

(** With an undefined index [is_hit] reads the set "0" and raises
    [KeyError] when the store has no such set; [get_block] does not. *)
Lemma is_hit_undefined_index_no_set (self : Cache) (addr_tag : option string) :
  sets self !! "0" = None →
  is_hit self None addr_tag = Raise KeyError
  ∧ get_block self None addr_tag = None.
Proof. intros H. unfold is_hit. by rewrite H. Qed.

(** Claim C10. With an undefined index [get_block] returns [None]
    whatever the cache holds, while [is_hit] consults the set "0": when
    that set holds a block with the tag, [is_hit] returns [True] and
    [get_block] still returns [None]. *)
Theorem get_block_undefined_index (self : Cache) (addr_tag : option string)
    (blocks : list Block) (b : Block) :
  get_block self None addr_tag = None
  ∧ (sets self !! "0" = Some blocks →
     is_hit self None addr_tag = Ok (existsb (has_tag addr_tag) blocks))
  ∧ (sets self !! "0" = Some blocks → b ∈ blocks → block_tag b = addr_tag →
     is_hit self None addr_tag = Ok true
     ∧ get_block self None addr_tag = None).
Proof.
  split; [done|]. unfold is_hit. split.
  - by intros ->.
  - intros -> Hb Ht. split; [|done]. f_equal.
    apply existsb_has_tag, list_elem_of_fmap. eauto.
Qed.

(** The statement above, at a concrete store. *)
Lemma get_block_undefined_index_witness :
  sets fully_assoc_demo !! "0" = Some [mkBlock (Some "101") None [5%N]]
  ∧ is_hit fully_assoc_demo None (Some "101") = Ok true
  ∧ get_block fully_assoc_demo None (Some "101") = None.
Proof.
  split; [reflexivity|].
  apply (get_block_undefined_index fully_assoc_demo (Some "101")
           [mkBlock (Some "101") None [5%N]] (mkBlock (Some "101") None [5%N])).
  - reflexivity.
  - apply list_elem_of_here.
  - reflexivity.
Defined.

(** ** Recency *)

Section Recency.

Lemma set_block_last_recently_used p n i b self self' :
  set_block_last p n i b self = Ok self' →
  recently_used_addrs self' = recently_used_addrs self
  ∧ is_l2 self' = is_l2 self.
Proof.
  unfold set_block_last. intros H.
  destruct (sets self !! target_key i) as [blocks|]; [|done].
  case_bool_decide; [destruct blocks; [done|]|]; by simplify_eq.
Qed.

Lemma set_block_recently_used p n i b l2 self self' l2' wb :
  set_block p n i b l2 self = Ok (self', l2', wb) →
  recently_used_addrs self' = recently_used_addrs self
  ∧ is_l2 self' = is_l2 self.
Proof.
  unfold set_block. intros H.
  destruct (sets self !! target_key i) as [blocks|]; [|done].
  case_bool_decide; [|by simplify_eq].
  destruct blocks as [|e blocks']; [done|].
  destruct l2 as [c|]; [|by simplify_eq].
  destruct (truthy (Some c) && negb (is_l2 self)); [|by simplify_eq].
  apply bind_Ok in H as (c' & _ & H). by simplify_eq.
Qed.

Lemma read_ref_recently_used n wpb p ref self l2 ref' self' l2' :
  read_ref n wpb p ref self l2 = Ok (ref', self', l2') →
  recently_used_addrs self'
  = recently_used_addrs (mark_ref_as_last_seen ref self).
Proof.
  unfold read_ref. intros H.
  apply bind_Ok in H as (h & _ & H). destruct h; [by simplify_eq|].
  apply bind_Ok in H as ([[s1 c1] wb] & Hs & H).
  apply set_block_recently_used in Hs as [Hs _].
  destruct c1 as [c|]; [|by simplify_eq].
  destruct (truthy (Some c)); [|by simplify_eq].
  apply bind_Ok in H as (h2 & _ & H). destruct h2; [by simplify_eq|].
  apply bind_Ok in H as (c' & _ & H). by simplify_eq.
Qed.

(** After a completed [read_refs], the last reference of the list is the
    last seen. *)
Lemma read_refs_last_seen n wpb p refs r l2 self refs' self' l2' v :
  read_refs n wpb p (refs ++ [r]) l2 self = Ok (refs', self', l2', v) →
  last (recently_used_addrs self') = Some (index r, tag r).
Proof.
  revert l2 self refs' self' l2' v.
  induction refs as [|r0 refs IH]; intros l2 self refs' self' l2' v H;
    simpl in H.
  - apply bind_Ok in H as ([[r1 s1] c1] & Hr & H). simpl in H. simplify_eq.
    apply read_ref_recently_used in Hr.
    rewrite Hr, mark_recently_used. apply last_snoc.
  - apply bind_Ok in H as ([[r1 s1] c1] & Hr & H).
    apply bind_Ok in H as ([[[rs s2] c2] v2] & Hrec & H). simplify_eq.
    by eapply IH.
Qed.

End Recency.

(** ** The value returned by [read_refs] and the two totals *)

(** Claim C5. [read_refs] has no [return] statement: whenever the call
    completes, the value it hands back is [None], not an integer. *)
Theorem read_refs_returns_None (n wpb : Z) (p : string) (refs : list Reference)
    (l2 : option Cache) (self : Cache)
    (refs' : list Reference) (self' : Cache) (l2' : option Cache) (v : PyValue) :
  read_refs n wpb p refs l2 self = Ok (refs', self', l2', v) →
  v = PyNone ∧ ∀ z, v ≠ PyInt z.
Proof.
  revert l2 self refs' self' l2' v.
  induction refs as [|r refs IH]; intros l2 self refs' self' l2' v H; simpl in H.
  - by simplify_eq.
  - apply bind_Ok in H as ([[r1 s1] c1] & _ & H).
    apply bind_Ok in H as ([[[rs s2] c2] v2] & Hrec & H).
    simplify_eq. by eapply IH.
Qed.

(** The statement above, at a concrete store. *)
Lemma read_refs_returns_None_witness :
  read_refs 2 1 "lru" [ref_of 5 None (Some "101")] None fully_assoc_demo
  = Ok ([set_cache_status hit (ref_of 5 None (Some "101"))],
        fully_assoc_demo, None, PyNone)
  ∧ PyNone = PyNone ∧ ∀ z, PyNone ≠ PyInt z.
Proof.
  split; [reflexivity|].
  apply (read_refs_returns_None 2 1 "lru" [ref_of 5 None (Some "101")]
           None fully_assoc_demo
           [set_cache_status hit (ref_of 5 None (Some "101"))]
           fully_assoc_demo None PyNone).
  reflexivity.
Defined.

(** The value handed back by a completed [read_refs]. *)
Lemma read_refs_value n wpb p refs l2 self refs' self' l2' v :
  read_refs n wpb p refs l2 self = Ok (refs', self', l2', v) → v = PyNone.
Proof.
  revert l2 self refs' self' l2' v.
  induction refs as [|r refs IH]; intros l2 self refs' self' l2' v H; simpl in H.
  - by simplify_eq.
  - apply bind_Ok in H as ([[r1 s1] c1] & _ & H).
    apply bind_Ok in H as ([[[rs s2] c2] v2] & Hrec & H).
    simplify_eq. by eapply IH.
Qed.

(** Claim C6. Both totals reported by [run_simulation] are [None]: no
    pair of integer cycle counts exists to be ordered. *)
Theorem run_simulation_totals_None (n wpb size : Z) (p : string) (bits : Z)
    (word_addrs : list N) (o : SimulationOutput) :
  run_simulation n wpb size p bits word_addrs = Ok o →
  total_cycles_with_l2 o = PyNone
  ∧ total_cycles_with_l1_only o = PyNone
  ∧ ¬ totals_ordered o.
Proof.
  unfold run_simulation. intros H.
  do 7 (apply bind_Ok in H as (? & _ & H)).
  apply bind_Ok in H as ([[[r1 s1] c1] v1] & H1 & H).
  apply bind_Ok in H as ([[[r2 s2] c2] v2] & H2 & H).
  apply read_refs_value in H1 as ->.
  apply read_refs_value in H2 as ->.
  simplify_eq. simpl. repeat split.
  intros (a & b & Ha & _). discriminate.
Qed.

(** The statement above, on a concrete run. *)
Lemma run_simulation_totals_None_witness :
  ∃ o, run_simulation 1 1 4 "lru" 1 [0; 4]%N = Ok o
       ∧ total_cycles_with_l2 o = PyNone
       ∧ total_cycles_with_l1_only o = PyNone
       ∧ ¬ totals_ordered o.
Proof.
  eexists. split; [vm_compute; reflexivity|].
  eapply (run_simulation_totals_None 1 1 4 "lru" 1 [0; 4]%N).
  vm_compute; reflexivity.
Defined.

(** ** Victim selection *)

(** Claim C1, evaluated: [set_block] drops the first block of the full
    set ([blocks.pop(0)]), whatever the recency list says. After 5, 6, 5
    the least recently used block is 6, the one that the scan of the
    recency list designates and that [replace_block] would overwrite, yet
    inserting 7 under LRU evicts 5; after 5, 6 the most recently used
    block is 6, yet inserting 7 under MRU evicts 5. *)
Theorem set_block_evicts_first_block :
  before_last_insert "lru" [5; 6; 5; 7]%N
    = Ok (lru_demo_l1, Some lru_demo_l2, blk "111" 7)
  ∧ selectVictim_spec lru_demo_l1 [blk "101" 5; blk "110" 6] "lru"
    = Some (blk "110" 6)
  ∧ replace_block lru_demo_l1 [blk "101" 5; blk "110" 6] "lru" None (blk "111" 7)
    = [blk "101" 5; blk "111" 7]
  ∧ (∃ l2', set_block "lru" 2 None (blk "111" 7) (Some lru_demo_l2) lru_demo_l1
            = Ok (store_blocks "0" [blk "110" 6; blk "111" 7] lru_demo_l1,
                  l2', [blk "101" 5]))
  ∧ (∃ o, run_simulation 2 1 2 "lru" 1 [5; 6; 5; 7]%N = Ok o
          ∧ sets (l1_cache o) !! "0" = Some [blk "110" 6; blk "111" 7])
  ∧ (∃ l1 l2 l2',
        before_last_insert "mru" [5; 6; 7]%N = Ok (l1, l2, blk "111" 7)
        ∧ sets l1 !! "0" = Some [blk "101" 5; blk "110" 6]
        ∧ selectVictim_spec l1 [blk "101" 5; blk "110" 6] "mru"
          = Some (blk "110" 6)
        ∧ set_block "mru" 2 None (blk "111" 7) l2 l1
          = Ok (store_blocks "0" [blk "110" 6; blk "111" 7] l1,
                l2', [blk "101" 5])).
Proof.
  split; [vm_compute; reflexivity|].
  split; [vm_compute; reflexivity|].
  split; [vm_compute; reflexivity|].
  split; [eexists; vm_compute; reflexivity|].
  split.
  - eexists. split; vm_compute; reflexivity.
  - do 3 eexists. split; [vm_compute; reflexivity|].
    split; [vm_compute; reflexivity|].
    split; vm_compute; reflexivity.
Qed.

(** ** The status field of the references over the two passes *)

Section Statuses.

Lemma same_addr_set_cache_status s r : same_addr r (set_cache_status s r).
Proof. done. Qed.

Lemma set_block_self p n i b l2 self self' l2' wb :
  set_block p n i b l2 self = Ok (self', l2', wb) →
  set_block_last p n i b self = Ok self'.
Proof.
  unfold set_block, set_block_last. intros H.
  destruct (sets self !! target_key i) as [blocks|]; [|done].
  case_bool_decide; [|by simplify_eq].
  destruct blocks as [|e blocks']; [done|].
  destruct l2 as [c|]; [|by simplify_eq].
  destruct (truthy (Some c) && negb (is_l2 self)); [|by simplify_eq].
  apply bind_Ok in H as (c' & _ & H). by simplify_eq.
Qed.

Lemma read_ref_status n wpb p ref self l2 ref' self' l2' :
  read_ref n wpb p ref self l2 = Ok (ref', self', l2') →
  ∃ s, ref' = set_cache_status s ref.
Proof.
  unfold read_ref. intros H.
  apply bind_Ok in H as (h & _ & H). destruct h; [exists hit; by simplify_eq|].
  apply bind_Ok in H as ([[s1 c1] wb] & _ & H). exists miss.
  destruct c1 as [c|]; [|by simplify_eq].
  destruct (truthy (Some c)); [|by simplify_eq].
  apply bind_Ok in H as (h2 & _ & H). destruct h2; [by simplify_eq|].
  apply bind_Ok in H as (c' & _ & H). by simplify_eq.
Qed.

(** The L1 store and the status do not depend on the next level. *)
Lemma read_ref_l1_only n wpb p r1 r2 self l2 r1' self1 l2' r2' self2 c2 :
  same_addr r1 r2 →
  read_ref n wpb p r1 self l2 = Ok (r1', self1, l2') →
  read_ref n wpb p r2 self None = Ok (r2', self2, c2) →
  self2 = self1 ∧ cache_status r2' = cache_status r1'.
Proof.
  destruct r1 as [w1 b1 o1 i1 t1 cs1 sw1], r2 as [w2 b2 o2 i2 t2 cs2 sw2].
  unfold same_addr. simpl. intros (-> & -> & ->).
  unfold read_ref, mark_ref_as_last_seen, get_cache_entry. simpl.
  intros H1 H2.
  apply bind_Ok in H1 as (h & Hh & H1).
  rewrite Hh in H2. simpl in H2.
  destruct h; [by simplify_eq|].
  apply bind_Ok in H1 as ([[s1 c1] wb1] & Hs1 & H1).
  apply bind_Ok in H2 as ([[s2 c2'] wb2] & Hs2 & H2).
  apply set_block_self in Hs1. apply set_block_self in Hs2.
  rewrite Hs1 in Hs2. simplify_eq.
  assert (r2' = set_cache_status miss (mkReference w2 b2 o2 i2 t2 cs2 sw2)
          ∧ self2 = s2) as [-> ->].
  { destruct c2' as [c|]; [|by simplify_eq].
    destruct (truthy (Some c)); [|by simplify_eq].
    apply bind_Ok in H2 as (h2 & _ & H2). destruct h2; [by simplify_eq|].
    apply bind_Ok in H2 as (c' & _ & H2). by simplify_eq. }
  destruct c1 as [c|]; [|by simplify_eq].
  destruct (truthy (Some c)); [|by simplify_eq].
  apply bind_Ok in H1 as (h2 & _ & H1). destruct h2; [by simplify_eq|].
  apply bind_Ok in H1 as (c' & _ & H1). by simplify_eq.
Qed.

Lemma read_refs_status n wpb p refs l2 self refs' self' l2' v :
  read_refs n wpb p refs l2 self = Ok (refs', self', l2', v) →
  Forall2 (fun r r' => ∃ s, r' = set_cache_status s r) refs refs'.
Proof.
  revert l2 self refs' self' l2' v.
  induction refs as [|r refs IH]; intros l2 self refs' self' l2' v H; simpl in H.
  - simplify_eq. constructor.
  - apply bind_Ok in H as ([[r1 s1] c1] & Hr & H).
    apply bind_Ok in H as ([[[rs s2] c2] v2] & Hrec & H). simplify_eq.
    constructor; [by eapply read_ref_status | by eapply IH].
Qed.

Lemma read_refs_l1_only n wpb p refsA refsB self l2
    refsA' self1 l2' v1 refsB' self2 c2 v2 :
  Forall2 same_addr refsA refsB →
  read_refs n wpb p refsA l2 self = Ok (refsA', self1, l2', v1) →
  read_refs n wpb p refsB None self = Ok (refsB', self2, c2, v2) →
  self2 = self1 ∧ statuses refsB' = statuses refsA'.
Proof.
  intros Hall. revert self l2 refsA' self1 l2' v1 refsB' self2 c2 v2.
  induction Hall as [|rA rB refsA refsB Hab Hall IH];
    intros self l2 refsA' self1 l2' v1 refsB' self2 c2 v2 H1 H2;
    simpl in H1, H2.
  - by simplify_eq.
  - apply bind_Ok in H1 as ([[a1 sa] ca] & Ha & H1).
    apply bind_Ok in H1 as ([[[ra sa'] ca'] va] & Hra & H1).
    apply bind_Ok in H2 as ([[b1 sb] cb] & Hb & H2).
    apply bind_Ok in H2 as ([[[rb sb'] cb'] vb] & Hrb & H2).
    simplify_eq.
    destruct (read_ref_l1_only _ _ _ _ _ _ _ _ _ _ _ _ _ Hab Ha Hb) as [-> Hst].
    assert (cb = None) as ->.
    { unfold read_ref in Hb.
      apply bind_Ok in Hb as (h & _ & Hb). destruct h; [by simplify_eq|].
      apply bind_Ok in Hb as ([[s c] wb] & Hs & Hb).
      rewrite set_block_no_l2 in Hs.
      apply bind_Ok in Hs as (s' & _ & Hs). by simplify_eq. }
    destruct (IH _ _ _ _ _ _ _ _ _ _ Hra Hrb) as [-> Hsts].
    split; [done|]. unfold statuses in *. rewrite !fmap_cons. by f_equal.
Qed.

Lemma get_addr_refs_fresh word_addrs a o i t refs :
  get_addr_refs word_addrs a o i t = Ok refs →
  Forall (fun r => status_writes r = 0%nat ∧ cache_status r = None) refs.
Proof.
  revert refs. induction word_addrs as [|w ws IH]; intros refs H; simpl in H.
  - simplify_eq. constructor.
  - apply bind_Ok in H as (r & Hr & H).
    apply bind_Ok in H as (rs & Hrs & H). simplify_eq.
    constructor; [|by apply IH].
    unfold Reference_init in Hr.
    repeat case_bool_decide; by simplify_eq.
Qed.

End Statuses.

(** Claim C7, as the program has it. The two passes of [run_simulation]
    go over the same reference objects, so every [cache_status] is
    assigned once in each pass: once when the references are displayed
    for the run with L2, twice at the end; the assignment of the L1-only
    pass stores the value that the first pass had stored. *)
Theorem run_simulation_status_written_per_pass (n wpb size : Z) (p : string)
    (bits : Z) (word_addrs : list N) (o : SimulationOutput) :
  run_simulation n wpb size p bits word_addrs = Ok o →
  Forall (fun r => status_writes r = 1%nat) (refs_with_l2 o)
  ∧ Forall (fun r => status_writes r = 2%nat) (refs_with_l1_only o)
  ∧ statuses (refs_with_l1_only o) = statuses (refs_with_l2 o)
  ∧ length (refs_with_l1_only o) = length word_addrs.
Proof.
  unfold run_simulation. intros H.
  do 6 (apply bind_Ok in H as (? & _ & H)).
  apply bind_Ok in H as (refs & Hrefs & H).
  apply bind_Ok in H as ([[[r1 s1] c1] v1] & H1 & H).
  apply bind_Ok in H as ([[[r2 s2] c2] v2] & H2 & H).
  simplify_eq. simpl.
  pose proof (get_addr_refs_fresh _ _ _ _ _ _ Hrefs) as Hfresh.
  pose proof (read_refs_status _ _ _ _ _ _ _ _ _ _ H1) as Hst1.
  pose proof (read_refs_status _ _ _ _ _ _ _ _ _ _ H2) as Hst2.
  assert (Forall (fun r => status_writes r = 1%nat) r1) as Hone.
  { clear -Hfresh Hst1. induction Hst1 as [|a b la lb [s ->] _ IH]; [constructor|].
    apply Forall_cons in Hfresh as [[Ha _] Hfresh].
    constructor; [simpl; by rewrite Ha | by apply IH]. }
  split; [done|]. split; [|split].
  - clear -Hone Hst2. induction Hst2 as [|a b la lb [s ->] _ IH]; [constructor|].
    apply Forall_cons in Hone as [Ha Hone].
    constructor; [simpl; by rewrite Ha | by apply IH].
  - assert (Forall2 same_addr refs r1) as Hsame.
    { eapply Forall2_impl; [exact Hst1|]. intros a b [s ->]. done. }
    by destruct (read_refs_l1_only _ _ _ _ _ _ _ _ _ _ _ _ _ _ _ Hsame H1 H2)
      as [_ ->]; [].
  - apply Forall2_length in Hst1, Hst2. rewrite <- Hst2, <- Hst1.
    clear -Hrefs. revert refs Hrefs.
    induction word_addrs as [|w ws IH]; intros refs H; simpl in H.
    + by simplify_eq.
    + apply bind_Ok in H as (r & Hr & H).
      apply bind_Ok in H as (rs & Hrs & H). simplify_eq. simpl.
      f_equal. by apply IH.
Qed.

(** The statement above, on a concrete run. *)
Lemma run_simulation_status_written_per_pass_witness :
  ∃ o, run_simulation 1 1 4 "lru" 1 [0; 4; 0]%N = Ok o
       ∧ Forall (fun r => status_writes r = 1%nat) (refs_with_l2 o)
       ∧ Forall (fun r => status_writes r = 2%nat) (refs_with_l1_only o)
       ∧ statuses (refs_with_l1_only o) = statuses (refs_with_l2 o)
       ∧ length (refs_with_l1_only o) = length [0; 4; 0]%N.
Proof.
  eexists. split; [vm_compute; reflexivity|].
  eapply (run_simulation_status_written_per_pass 1 1 4 "lru" 1 [0; 4; 0]%N).
  vm_compute; reflexivity.
Defined.

(** Claim C7, as stated, fails: in the run over the addresses 0 and 4
    every reference has had its [cache_status] assigned twice when the
    run ends, the second time by the L1-only pass. *)
Lemma run_simulation_status_written_twice :
  ∃ o, run_simulation 1 1 4 "lru" 1 [0; 4]%N = Ok o
       ∧ status_writes <$> refs_with_l2 o = [1; 1]%nat
       ∧ status_writes <$> refs_with_l1_only o = [2; 2]%nat
       ∧ ¬ Forall (fun r => status_writes r = 1%nat) (refs_with_l1_only o).
Proof.
  eexists. split; [vm_compute; reflexivity|].
  split; [vm_compute; reflexivity|].
  split; [vm_compute; reflexivity|].
  intros H. apply Forall_cons in H as [H _]. vm_compute in H. discriminate.
Qed.

(** ** Eviction write-back with one block per set *)

Section WriteBack.

Lemma is_hit_target self i t blocks :
  sets self !! target_key i = Some blocks →
  is_hit self i t = Ok (existsb (has_tag t) blocks).
Proof. unfold is_hit. destruct i; simpl; by intros ->. Qed.

Lemma truthy_lookup l2 k blocks :
  sets l2 !! k = Some blocks → truthy (Some l2) = true.
Proof.
  intros H. unfold truthy. apply negb_true_iff, bool_decide_eq_false.
  intros He. by rewrite He, lookup_empty in H.
Qed.

Lemma set_block_last_one p i b self blocks :
  sets self !! target_key i = Some blocks →
  (length blocks ≤ 1)%nat →
  set_block_last p 1 i b self = Ok (store_blocks (target_key i) [b] self).
Proof.
  intros Hk Hlen. unfold set_block_last. rewrite Hk.
  destruct blocks as [|y [|z blocks]]; simpl in *; [done|done|lia].
Qed.

End WriteBack.

(** Claim C4, as the program has it. With one block per set and an L2
    store attached, a miss in L1 that evicts block X (whose index is
    defined) puts X in L2: right after the insertion into L1, [get_block]
    on L2 returns X. The reference is not yet processed: the fill of L2
    that follows the miss inserts the missed block in the same one-block
    set, and when the reference has been processed [get_block] no longer
    finds X. *)
Theorem evicted_block_in_l2_until_fill (wpb : Z) (p : string) (ref : Reference)
    (self l2 : Cache) (X : Block) (k : string) (s2 : list Block) :
  sets self !! target_key (index ref) = Some [X] →
  block_tag X ≠ tag ref →
  is_l2 self = false →
  block_index X = Some k →
  target_key (index ref) = k →
  sets l2 !! k = Some s2 →
  (length s2 ≤ 1)%nat →
  ∃ self1 l2a l2b,
    set_block p 1 (index ref) (get_cache_entry ref wpb) (Some l2)
              (mark_ref_as_last_seen ref self)
    = Ok (self1, Some l2a, [X])
    ∧ get_block l2a (Some k) (block_tag X) = Some X
    ∧ read_ref 1 wpb p ref self (Some l2)
      = Ok (set_cache_status miss ref, self1, Some l2b)
    ∧ sets l2b !! k = Some [get_cache_entry ref wpb]
    ∧ get_block l2b (Some k) (block_tag X) = None.
Proof.
  intros Hset Htag Hl2 Hidx Hk Hs2 Hlen.
  assert (has_tag (tag ref) X = false) as HX.
  { by apply bool_decide_eq_false. }
  assert (set_block p 1 (index ref) (get_cache_entry ref wpb) (Some l2)
            (mark_ref_as_last_seen ref self)
          = Ok (store_blocks k [get_cache_entry ref wpb]
                  (mark_ref_as_last_seen ref self),
                Some (store_blocks k [X] l2), [X])) as Hsb.
  { unfold set_block. rewrite mark_sets, Hset. simpl.
    rewrite Hl2, (truthy_lookup _ _ _ Hs2). simpl.
    rewrite Hidx.
    rewrite (set_block_last_one p (Some k) X l2 s2 Hs2 Hlen). simpl.
    by rewrite Hk. }
  eexists _, _, _. split; [exact Hsb|]. split; [|split; [|split]].
  - unfold get_block, store_blocks. simpl. rewrite lookup_insert_eq. simpl.
    unfold has_tag. by rewrite bool_decide_eq_true_2.
  - unfold read_ref.
    rewrite (is_hit_target _ _ _ [X]) by (by rewrite mark_sets).
    simpl. rewrite HX. simpl.
    change (index (set_cache_status miss ref)) with (index ref).
    change (tag (set_cache_status miss ref)) with (tag ref).
    change (get_cache_entry (set_cache_status miss ref) wpb)
      with (get_cache_entry ref wpb).
    rewrite Hsb. simpl.
    assert (sets (store_blocks k [X] l2) !! target_key (index ref) = Some [X])
      as Hl2a.
    { rewrite Hk. unfold store_blocks. simpl. apply lookup_insert_eq. }
    rewrite (truthy_lookup _ _ _ Hl2a).
    rewrite (is_hit_target _ _ _ [X] Hl2a). simpl. rewrite HX. simpl.
    rewrite (set_block_last_one p (index ref) _ _ [X] Hl2a) by (simpl; lia).
    simpl. rewrite Hk. reflexivity.
  - unfold store_blocks. simpl. apply lookup_insert_eq.
  - unfold get_block, store_blocks. simpl. rewrite lookup_insert_eq. simpl.
    unfold has_tag, get_cache_entry. simpl.
    rewrite bool_decide_eq_false_2; [done|]. congruence.
Qed.

(** The statement above, at a concrete store. *)
Lemma evicted_block_in_l2_until_fill_witness :
  ∃ self1 l2a l2b,
    set_block "lru" 1 (Some "00")
              (get_cache_entry (ref_of 4 (Some "00") (Some "1")) 1)
              (Some direct_demo_l2)
              (mark_ref_as_last_seen (ref_of 4 (Some "00") (Some "1")) direct_demo_l1)
    = Ok (self1, Some l2a, [direct_demo_block])
    ∧ get_block l2a (Some "00") (Some "0") = Some direct_demo_block
    ∧ read_ref 1 1 "lru" (ref_of 4 (Some "00") (Some "1")) direct_demo_l1
               (Some direct_demo_l2)
      = Ok (set_cache_status miss (ref_of 4 (Some "00") (Some "1")), self1, Some l2b)
    ∧ sets l2b !! "00" = Some [get_cache_entry (ref_of 4 (Some "00") (Some "1")) 1]
    ∧ get_block l2b (Some "00") (Some "0") = None.
Proof.
  apply (evicted_block_in_l2_until_fill 1 "lru" (ref_of 4 (Some "00") (Some "1"))
           direct_demo_l1 direct_demo_l2 direct_demo_block "00"
           [direct_demo_block]).
  - reflexivity.
  - discriminate.
  - reflexivity.
  - reflexivity.
  - reflexivity.
  - reflexivity.
  - simpl. lia.
Defined.

(** Claim C4, as stated, fails: in the direct-mapped run over the
    addresses 0 and 4, reading 4 misses in L1 and evicts the block of 0;
    once 4 has been processed, [get_block] on L2 at the index and tag of
    the evicted block returns [None]. *)
Lemma evicted_block_not_in_l2_after_ref :
  ∃ r0 r4 r0' l1 l2 l1a l2a r4' l1b l2b,
    get_addr_refs [0; 4]%N 3 0 2 1 = Ok [r0; r4]
    ∧ read_refs 1 1 "lru" [r0] (Some (Cache_init 4 2 true)) (Cache_init 4 2 false)
      = Ok ([r0'], l1, Some l2, PyNone)
    ∧ set_block "lru" 1 (index r4) (get_cache_entry r4 1) (Some l2)
                (mark_ref_as_last_seen r4 l1)
      = Ok (l1a, Some l2a, [direct_demo_block])
    ∧ read_ref 1 1 "lru" r4 l1 (Some l2) = Ok (r4', l1b, Some l2b)
    ∧ cache_status r4' = Some miss
    ∧ get_block l2b (block_index direct_demo_block) (block_tag direct_demo_block)
      = None.
Proof.
  do 10 eexists.
  split; [vm_compute; reflexivity|].
  split; [vm_compute; reflexivity|].
  split; [vm_compute; reflexivity|].
  split; [vm_compute; reflexivity|].
  split; vm_compute; reflexivity.
Qed.

(** ** Capacity of the sets and write-backs *)

Section Capacity.

Lemma Cache_init_all_sets_empty num_sets num_index_bits l2 :
  all_sets_empty (Cache_init num_sets num_index_bits l2).
Proof.
  unfold all_sets_empty, Cache_init. simpl.
  generalize (seq 0 (Z.to_nat num_sets)). intros l.
  assert (∀ (m : gmap string (list Block)),
            (∀ k blocks, m !! k = Some blocks → blocks = []) →
            ∀ k blocks,
              foldl (fun m i => <[BinaryAddress (N.of_nat i) num_index_bits := []]> m)
                    m l !! k = Some blocks → blocks = []) as H.
  { induction l as [|i l IH]; intros m Hm k blocks; simpl; [apply Hm|].
    apply IH. intros k' blocks'. rewrite lookup_insert.
    case_decide; [by intros [= <-] | apply Hm]. }
  apply H. intros k blocks. by rewrite lookup_empty.
Qed.

Lemma set_block_last_Ok p n i b self self' :
  set_block_last p n i b self = Ok self' →
  ∃ blocks,
    sets self !! target_key i = Some blocks
    ∧ (Z.of_nat (length blocks) = n → blocks ≠ [])
    ∧ self' = store_blocks (target_key i) (pushed n blocks b) self.
Proof.
  unfold set_block_last, pushed. intros H.
  destruct (sets self !! target_key i) as [blocks|]; [|done].
  exists blocks. split; [done|].
  case_bool_decide; [destruct blocks; [done|]|]; by simplify_eq.
Qed.

Lemma length_pushed {A : Type} (n : Z) (l : list A) (x : A) :
  (Z.of_nat (length l) = n → l ≠ []) →
  (Z.of_nat (length l) <= n)%Z →
  (Z.of_nat (length (pushed n l x)) <= n)%Z.
Proof.
  unfold pushed. intros Hne Hle. rewrite length_app. simpl.
  case_bool_decide as Hn.
  - destruct l; [by destruct (Hne Hn)|]. simpl in *. lia.
  - lia.
Qed.

Lemma store_blocks_within n k blocks self :
  within_capacity n self →
  (Z.of_nat (length blocks) <= n)%Z →
  within_capacity n (store_blocks k blocks self).
Proof.
  intros Hc Hlen k' blocks'. unfold store_blocks. simpl.
  rewrite lookup_insert. case_decide; [by intros [= <-] | apply Hc].
Qed.

Lemma set_block_last_within p n i b self self' :
  within_capacity n self →
  set_block_last p n i b self = Ok self' →
  within_capacity n self'.
Proof.
  intros Hc H. apply set_block_last_Ok in H as (blocks & Hk & Hne & ->).
  apply store_blocks_within; [done|].
  apply length_pushed; [done | by eapply Hc].
Qed.

(** What a completed [set_block] did: the target set was pushed, and the
    next level either is untouched (no write-back) or received the
    evicted entry, the first block of the full set. *)
Lemma set_block_Ok p n i b l2 self self' l2' wb :
  set_block p n i b l2 self = Ok (self', l2', wb) →
  ∃ blocks,
    sets self !! target_key i = Some blocks
    ∧ (Z.of_nat (length blocks) = n → blocks ≠ [])
    ∧ self' = store_blocks (target_key i) (pushed n blocks b) self
    ∧ if bool_decide (Z.of_nat (length blocks) = n)
         && truthy l2 && negb (is_l2 self)
      then ∃ e c c', head blocks = Some e ∧ wb = [e] ∧ l2 = Some c
                     ∧ set_block_last p n (block_index e) e c = Ok c'
                     ∧ l2' = Some c'
      else wb = [] ∧ l2' = l2.
Proof.
  intros H. pose proof (set_block_self _ _ _ _ _ _ _ _ _ H) as Hself.
  apply set_block_last_Ok in Hself as (blocks & Hk & Hne & ->).
  exists blocks. do 3 (split; [done|]).
  unfold set_block in H. rewrite Hk in H.
  case_bool_decide as Hn; simpl; [|by simplify_eq].
  destruct blocks as [|e blocks']; [done|].
  destruct l2 as [c|]; [|by simplify_eq].
  destruct (truthy (Some c)) eqn:Ht, (is_l2 self) eqn:Hl; simpl in *;
    try by simplify_eq.
  apply bind_Ok in H as (c' & Hc' & H). simplify_eq.
  by exists e, c, c'.
Qed.

Lemma set_block_within p n i b l2 self self' l2' wb :
  within_capacity n self →
  from_option (within_capacity n) True l2 →
  set_block p n i b l2 self = Ok (self', l2', wb) →
  within_capacity n self' ∧ from_option (within_capacity n) True l2'.
Proof.
  intros Hc Hc2 H. split.
  - apply set_block_self in H. by eapply set_block_last_within.
  - apply set_block_Ok in H as (blocks & _ & _ & _ & H).
    destruct (_ && _ && _).
    + destruct H as (e & c & c' & _ & _ & -> & Hc' & ->). simpl in *.
      by eapply set_block_last_within.
    + by destruct H as [_ ->].
Qed.

Lemma all_sets_empty_within n self :
  (0 <= n)%Z → all_sets_empty self → within_capacity n self.
Proof. intros Hn He k blocks Hk. rewrite (He _ _ Hk). simpl. lia. Qed.

Lemma insert_reachable_within n self l2 :
  (0 <= n)%Z →
  insert_reachable n self l2 →
  within_capacity n self ∧ from_option (within_capacity n) True l2.
Proof.
  intros Hn. induction 1 as [self l2 He He2|p i b self l2 self' l2' wb _ IH H
                            |p i b self l2 l2' _ IH H].
  - split; [by apply all_sets_empty_within|].
    destruct l2; [by apply all_sets_empty_within | done].
  - destruct IH. by eapply set_block_within.
  - destruct IH as [IH1 IH2]. split; [done|]. simpl in *.
    by eapply set_block_last_within.
Qed.

End Capacity.

(** Claim C2. On the stores that insertions with a fixed number [n] of
    blocks per set lead to, every completed [set_block] leaves each set
    (of the store and of its next level) with at most [n] entries. When
    the target set held [n] entries and a next level is attached to a
    store that is not itself an L2, exactly one entry, the evicted one, is
    written back to the next level; when the target set held fewer than
    [n] entries nothing is written back and the next level is untouched. *)
Theorem set_block_capacity_and_write_back (n : Z) (p : string)
    (i : option string) (b : Block) (self : Cache) (l2 : option Cache)
    (self' : Cache) (l2' : option Cache) (wb : list Block) :
  (0 <= n)%Z →
  insert_reachable n self l2 →
  set_block p n i b l2 self = Ok (self', l2', wb) →
  within_capacity n self'
  ∧ from_option (within_capacity n) True l2'
  ∧ ∃ blocks,
      sets self !! target_key i = Some blocks
      ∧ (Z.of_nat (length blocks) = n → truthy l2 = true → is_l2 self = false →
         ∃ e c c', head blocks = Some e ∧ wb = [e] ∧ l2 = Some c
                   ∧ set_block_last p n (block_index e) e c = Ok c'
                   ∧ l2' = Some c')
      ∧ ((Z.of_nat (length blocks) < n)%Z → wb = [] ∧ l2' = l2).
Proof.
  intros Hn Hreach H.
  destruct (insert_reachable_within _ _ _ Hn Hreach) as [Hc Hc2].
  destruct (set_block_within _ _ _ _ _ _ _ _ _ Hc Hc2 H) as [Hc' Hc2'].
  do 2 (split; [done|]).
  apply set_block_Ok in H as (blocks & Hk & _ & _ & H).
  exists blocks. split; [done|]. split.
  - intros Hfull Ht Hl. by rewrite bool_decide_eq_true_2, Ht, Hl in H.
  - intros Hlt. rewrite bool_decide_eq_false_2 in H by lia. done.
Qed.

(** The statement above, at a concrete store. *)
Lemma set_block_capacity_and_write_back_witness :
  ∃ self' l2',
    (0 <= 1)%Z
    ∧ insert_reachable 1 direct_demo_l1 (Some direct_demo_l2)
    ∧ set_block "lru" 1 (Some "00")
                (get_cache_entry (ref_of 4 (Some "00") (Some "1")) 1)
                (Some direct_demo_l2) direct_demo_l1
      = Ok (self', l2', [direct_demo_block])
    ∧ within_capacity 1 self'
    ∧ from_option (within_capacity 1) True l2'
    ∧ ∃ blocks,
        sets direct_demo_l1 !! "00" = Some blocks
        ∧ (Z.of_nat (length blocks) = 1%Z →
           truthy (Some direct_demo_l2) = true →
           is_l2 direct_demo_l1 = false →
           ∃ e c c', head blocks = Some e ∧ [direct_demo_block] = [e]
                     ∧ Some direct_demo_l2 = Some c
                     ∧ set_block_last "lru" 1 (block_index e) e c = Ok c'
                     ∧ l2' = Some c')
        ∧ ((Z.of_nat (length blocks) < 1)%Z →
           [direct_demo_block] = [] ∧ l2' = Some direct_demo_l2).
Proof.
  assert (insert_reachable 1 direct_demo_l1 (Some direct_demo_l2)) as Hreach.
  { apply (reach_fill 1 "lru" (Some "00") direct_demo_block direct_demo_l1
                      (Cache_init 4 2 true)); [|vm_compute; reflexivity].
    apply (reach_set_block 1 "lru" (Some "00") direct_demo_block
                           (Cache_init 4 2 false) (Some (Cache_init 4 2 true))
                           direct_demo_l1 _ []); [|vm_compute; reflexivity].
    apply reach_fresh; apply Cache_init_all_sets_empty. }
  eexists _, _. split; [lia|]. split; [exact Hreach|].
  split; [vm_compute; reflexivity|].
  eapply (set_block_capacity_and_write_back 1 "lru" (Some "00")
            (get_cache_entry (ref_of 4 (Some "00") (Some "1")) 1)
            direct_demo_l1 (Some direct_demo_l2)); [lia | exact Hreach|].
  vm_compute; reflexivity.
Defined.

(** ** Distinct tags within a set *)

Section TagInvariant.

Context {A : Type} `{EqDecision A}.

Lemma NoDup_tail (t : list A) : NoDup t → NoDup (tail t).
Proof. destruct t; [done|]. simpl. by intros [_ ?]%NoDup_cons. Qed.

Lemma elem_of_tail (t : list A) x : x ∈ tail t → x ∈ t.
Proof. destruct t; [done|]. simpl. apply list_elem_of_further. Qed.

Lemma NoDup_snoc (t : list A) x : NoDup t → x ∉ t → NoDup (t ++ [x]).
Proof.
  intros Hnd Hx. apply NoDup_app. split; [done|]. split; [|apply NoDup_singleton].
  intros y Hy Hy'. apply list_elem_of_singleton in Hy'. by subst.
Qed.

Lemma NoDup_pushed n (t : list A) x : NoDup t → x ∉ t → NoDup (pushed n t x).
Proof.
  intros Hnd Hx. unfold pushed. case_bool_decide.
  - apply NoDup_snoc; [by apply NoDup_tail|]. intros Hin. by apply elem_of_tail in Hin.
  - by apply NoDup_snoc.
Qed.

Lemma pos_le_refl (t : list A) : NoDup t → pos_le t t.
Proof.
  intros Hnd i j x Hi Hj. by rewrite (NoDup_lookup t i j x Hnd Hi Hj).
Qed.

Lemma set_inv_refl wbmode n (t : list A) : NoDup t → set_inv wbmode n t t.
Proof. intros Hnd. split; [done|]. split; [done|]. by left. Qed.

(** A miss without write-back: the set of L1 is not full, or L1 does not
    write back. *)
Lemma set_inv_miss_plain wbmode n (t1 t2 : list A) R :
  set_inv wbmode n t1 t2 →
  (Z.of_nat (length t1) = n → wbmode = false) →
  R ∉ t1 →
  set_inv wbmode n (pushed n t1 R)
          (if decide (R ∈ t2) then t2 else pushed n t2 R).
Proof.
  intros (Hnd1 & Hnd2 & [-> | (Hwb & Hlen & _)]) Hno HR.
  - rewrite decide_False by done. apply set_inv_refl. by apply NoDup_pushed.
  - rewrite (Hno Hlen) in Hwb. discriminate.
Qed.

(** A miss on a full set of L1 with write-back of its first tag [X]. *)
Lemma set_inv_miss_full n X (r1 t2 : list A) R :
  NoDup (X :: r1) → NoDup t2 →
  Z.of_nat (length (X :: r1)) = n →
  length t2 = length (X :: r1) →
  pos_le (X :: r1) t2 →
  R ∉ X :: r1 →
  set_inv true n (r1 ++ [R])
          (if decide (R ∈ pushed n t2 X) then pushed n t2 X
           else pushed n (pushed n t2 X) R).
Proof.
  intros Hnd1 Hnd2 Hn Hlen Hpos HR.
  destruct t2 as [|Y r2]; [done|].
  simpl in Hlen. injection Hlen as Hlen.
  apply NoDup_cons in Hnd1 as [HX Hnd1].
  apply NoDup_cons in Hnd2 as [HY Hnd2].
  apply not_elem_of_cons in HR as [HRX HR].
  assert (pushed n (Y :: r2) X = r2 ++ [X]) as ->.
  { unfold pushed. rewrite bool_decide_eq_true_2; [done|]. simpl in *. lia. }
  assert (X ∉ r2) as HXr2.
  { intros [j Hj]%list_elem_of_lookup.
    specialize (Hpos 0%nat (S j) X eq_refl Hj). lia. }
  assert (NoDup (r2 ++ [X])) as Hnd2' by by apply NoDup_snoc.
  assert (NoDup (r1 ++ [R])) as Hnd1' by by apply NoDup_snoc.
  assert (∀ i x, r1 !! i = Some x → x ≠ X ∧ x ≠ R) as Hr1.
  { intros i x Hi. assert (x ∈ r1) by (apply list_elem_of_lookup; eauto).
    split; intros ->; done. }
  destruct (decide (R ∈ r2 ++ [X])) as [Hin|Hnin].
  - split; [done|]. split; [done|]. right.
    split; [done|]. split; [rewrite length_app; simpl in *; lia|].
    split; [rewrite !length_app; simpl; lia|].
    intros i j x Hi Hj.
    apply lookup_snoc_Some in Hi as [[Hlt Hi] | [-> <-]].
    + destruct (Hr1 _ _ Hi) as [HxX HxR].
      apply lookup_snoc_Some in Hj as [[Hlt' Hj] | [-> <-]]; [|done].
      specialize (Hpos (S i) (S j) x Hi Hj). lia.
    + apply lookup_lt_Some in Hj. rewrite length_app in Hj. simpl in Hj. lia.
  - assert (pushed n (r2 ++ [X]) R = tail (r2 ++ [X]) ++ [R]) as ->.
    { unfold pushed. rewrite bool_decide_eq_true_2; [done|].
      rewrite length_app. simpl in *. lia. }
    assert (NoDup (tail (r2 ++ [X]) ++ [R])) as Hnd2''.
    { apply NoDup_snoc; [by apply NoDup_tail|].
      intros Hin. by apply elem_of_tail in Hin. }
    assert (length (tail (r2 ++ [X])) = length r2) as Hlt2.
    { destruct r2; simpl; [done|]. rewrite length_app. simpl. lia. }
    split; [done|]. split; [done|]. right.
    split; [done|]. split; [rewrite length_app; simpl in *; lia|].
    split; [rewrite !length_app, Hlt2; simpl; lia|].
    intros i j x Hi Hj.
    apply lookup_snoc_Some in Hi as [[Hlt Hi] | [-> <-]].
    + destruct (Hr1 _ _ Hi) as [HxX HxR].
      apply lookup_snoc_Some in Hj as [[Hlt' Hj] | [-> <-]]; [|done].
      rewrite lookup_tail in Hj.
      apply lookup_snoc_Some in Hj as [[Hlt'' Hj] | [_ <-]]; [|done].
      specialize (Hpos (S i) (S (S j)) x Hi Hj). lia.
    + apply lookup_lt_Some in Hj. rewrite length_app, Hlt2 in Hj.
      simpl in Hj. lia.
Qed.

Lemma set_inv_miss_wb n (t1 t2 : list A) X R :
  set_inv true n t1 t2 →
  head t1 = Some X →
  Z.of_nat (length t1) = n →
  R ∉ t1 →
  set_inv true n (pushed n t1 R)
          (if decide (R ∈ pushed n t2 X) then pushed n t2 X
           else pushed n (pushed n t2 X) R).
Proof.
  intros (Hnd1 & Hnd2 & Hrel) [r1 ->]%head_Some Hn HR.
  assert (pushed n (X :: r1) R = r1 ++ [R]) as ->.
  { unfold pushed. by rewrite bool_decide_eq_true_2. }
  destruct Hrel as [-> | (_ & _ & Hlen & Hpos)].
  - apply set_inv_miss_full; try done. by apply pos_le_refl.
  - by apply set_inv_miss_full.
Qed.

End TagInvariant.

Section ReadRef.

Lemma is_hit_true c i t :
  is_hit c i t = Ok true →
  ∃ s, sets c !! target_key i = Some s ∧ t ∈ (block_tag <$> s).
Proof.
  unfold is_hit. destruct i as [k|]; simpl.
  - destruct (sets c !! k) as [s|]; [|done]. intros [= H].
    exists s. split; [done|]. by apply existsb_has_tag.
  - destruct (sets c !! "0") as [s|]; [|done]. intros [= H].
    exists s. split; [done|]. by apply existsb_has_tag.
Qed.

Lemma truthy_store k blocks c : truthy (Some (store_blocks k blocks c)) = true.
Proof.
  apply (truthy_lookup _ k blocks). unfold store_blocks. simpl.
  apply lookup_insert_eq.
Qed.

(** What a completed pass of the loop body of [read_refs] did. On a hit
    only the recency list changes. On a miss the block is pushed on the
    target set of L1; the next level [l2a] after the insertion into L1
    has received the evicted block if there was a write-back; then, if a
    next level is attached, the block is pushed on its target set unless
    that set has the tag already. *)
Lemma read_ref_Ok n wpb p ref self l2 ref' self' l2' :
  read_ref n wpb p ref self l2 = Ok (ref', self', l2') →
  ∃ blocks,
    sets self !! target_key (index ref) = Some blocks
    ∧ ((tag ref ∈ (block_tag <$> blocks)
        ∧ self' = mark_ref_as_last_seen ref self ∧ l2' = l2)
       ∨ ((tag ref ∉ (block_tag <$> blocks))
          ∧ self' = store_blocks (target_key (index ref))
                      (pushed n blocks (get_cache_entry ref wpb))
                      (mark_ref_as_last_seen ref self)
          ∧ ∃ l2a,
              (if bool_decide (Z.of_nat (length blocks) = n)
                  && truthy l2 && negb (is_l2 self)
               then ∃ e c s2,
                   head blocks = Some e ∧ l2 = Some c
                   ∧ sets c !! target_key (block_index e) = Some s2
                   ∧ l2a = Some (store_blocks (target_key (block_index e))
                                   (pushed n s2 e) c)
               else l2a = l2)
              ∧ (if truthy l2a
                 then ∃ ca s2a,
                     l2a = Some ca
                     ∧ sets ca !! target_key (index ref) = Some s2a
                     ∧ l2' = Some
                         (if decide (tag ref ∈ (block_tag <$> s2a)) then ca
                          else store_blocks (target_key (index ref))
                                 (pushed n s2a (get_cache_entry ref wpb)) ca)
                 else l2' = l2a))).
Proof.
  unfold read_ref. intros H.
  apply bind_Ok in H as (h & Hh & H). destruct h.
  - apply is_hit_true in Hh as (blocks & Hk & Hin). rewrite mark_sets in Hk.
    exists blocks. split; [done|]. left. by simplify_eq.
  - apply bind_Ok in H as ([[s1 l2a] wb] & Hs & H).
    change (index (set_cache_status miss ref)) with (index ref) in *.
    change (tag (set_cache_status miss ref)) with (tag ref) in *.
    change (get_cache_entry (set_cache_status miss ref) wpb)
      with (get_cache_entry ref wpb) in *.
    apply set_block_Ok in Hs as (blocks & Hk & _ & -> & Hwb).
    rewrite mark_sets in Hk. rewrite mark_is_l2 in Hwb.
    exists blocks. split; [done|]. right.
    rewrite (is_hit_target _ _ _ blocks) in Hh by by rewrite mark_sets.
    injection Hh as Hh. apply existsb_has_tag_false in Hh.
    split; [done|].
    assert (self' = store_blocks (target_key (index ref))
                      (pushed n blocks (get_cache_entry ref wpb))
                      (mark_ref_as_last_seen ref self)
            ∧ if truthy l2a
              then ∃ ca s2a,
                  l2a = Some ca
                  ∧ sets ca !! target_key (index ref) = Some s2a
                  ∧ l2' = Some
                      (if decide (tag ref ∈ (block_tag <$> s2a)) then ca
                       else store_blocks (target_key (index ref))
                              (pushed n s2a (get_cache_entry ref wpb)) ca)
              else l2' = l2a) as [-> Hfill].
    { destruct l2a as [ca|]; [|by simplify_eq].
      destruct (truthy (Some ca)); [|by simplify_eq].
      apply bind_Ok in H as (h2 & Hh2 & H). destruct h2.
      - simplify_eq. split; [done|].
        apply is_hit_true in Hh2 as (s2a & Hk2 & Hin).
        exists ca, s2a. by rewrite decide_True.
      - apply bind_Ok in H as (c' & Hc' & H). simplify_eq. split; [done|].
        apply set_block_last_Ok in Hc' as (s2a & Hk2 & _ & ->).
        rewrite (is_hit_target _ _ _ s2a Hk2) in Hh2.
        injection Hh2 as Hh2. apply existsb_has_tag_false in Hh2.
        exists ca, s2a. by rewrite decide_False. }
    split; [done|]. exists l2a. split; [|done].
    destruct (_ && _ && _); [|by destruct Hwb].
    destruct Hwb as (e & c & c' & He & _ & -> & Hc' & ->).
    apply set_block_last_Ok in Hc' as (s2 & Hk2 & _ & ->).
    by exists e, c, s2.
Qed.

End ReadRef.

Section Hierarchy.

Lemma fmap_pushed n (blocks : list Block) b :
  block_tag <$> pushed n blocks b
  = pushed n (block_tag <$> blocks) (block_tag b).
Proof.
  unfold pushed. rewrite length_fmap.
  case_bool_decide; by rewrite fmap_app, ?fmap_tail.
Qed.

Lemma elem_of_pushed {A : Type} n (l : list A) x y :
  x ∈ pushed n l y → x ∈ l ∨ x = y.
Proof.
  unfold pushed. intros [Hin | Hin%list_elem_of_singleton]%elem_of_app; [|by right].
  left. case_bool_decide; [|done]. destruct l; [done|]. by apply list_elem_of_further.
Qed.

Lemma set_tags_lookup c k blocks :
  sets c !! k = Some blocks → set_tags c k = block_tag <$> blocks.
Proof. unfold set_tags. by intros ->. Qed.

Lemma set_tags_store_eq k blocks c :
  set_tags (store_blocks k blocks c) k = block_tag <$> blocks.
Proof. unfold set_tags, store_blocks. simpl. by rewrite lookup_insert_eq. Qed.

Lemma set_tags_store_ne k k' blocks c :
  k ≠ k' → set_tags (store_blocks k blocks c) k' = set_tags c k'.
Proof.
  intros Hne. unfold set_tags, store_blocks. simpl.
  by rewrite lookup_insert_ne.
Qed.

Lemma set_tags_mark ref self k :
  set_tags (mark_ref_as_last_seen ref self) k = set_tags self k.
Proof. done. Qed.

Lemma tags_distinct_set_tags c :
  tags_distinct c ↔ ∀ k, NoDup (set_tags c k).
Proof.
  split.
  - intros H k. unfold set_tags.
    destruct (sets c !! k) as [blocks|] eqn:Hk; simpl; [by eapply H|constructor].
  - intros H k blocks Hk. specialize (H k). by rewrite (set_tags_lookup _ _ _ Hk) in H.
Qed.

Lemma index_ok_store n k blocks b self self0 :
  index_ok self →
  sets self0 = sets self →
  sets self !! k = Some blocks →
  target_key (block_index b) = k →
  index_ok (store_blocks k (pushed n blocks b) self0).
Proof.
  intros Hok Hs Hk Hb k' blocks' b'. unfold store_blocks. simpl.
  rewrite Hs, lookup_insert. case_decide as Hkk.
  - subst k'. intros [= <-] [Hin | ->]%elem_of_pushed; [by eapply Hok | done].
  - apply Hok.
Qed.

(** The loop body keeps the tags of every set of L1 distinct. *)
Lemma read_ref_tags_distinct n wpb p ref self l2 ref' self' l2' :
  tags_distinct self →
  read_ref n wpb p ref self l2 = Ok (ref', self', l2') →
  tags_distinct self'.
Proof.
  intros Hd H.
  apply read_ref_Ok in H as (blocks & Hk & [(_ & -> & _) | (HR & -> & _)]);
    [done|].
  intros k' blocks'. unfold store_blocks. simpl.
  rewrite lookup_insert. case_decide; [|apply Hd].
  intros [= <-]. rewrite fmap_pushed.
  apply NoDup_pushed; [by eapply Hd | done].
Qed.

(** Without a next level, or with a next level that has no set, the next
    level is left as it is. *)
Lemma read_ref_l2_untouched n wpb p ref self l2 ref' self' l2' :
  truthy l2 = false →
  read_ref n wpb p ref self l2 = Ok (ref', self', l2') →
  l2' = l2.
Proof.
  intros Ht H.
  apply read_ref_Ok in H as (blocks & Hk & [(_ & _ & ->) | (_ & _ & l2a & Hwb & Hfill)]);
    [done|].
  rewrite Ht, andb_false_r in Hwb. simpl in Hwb. subst l2a.
  by rewrite Ht in Hfill.
Qed.

(** The loop body keeps the invariant of the hierarchy. *)
Lemma read_ref_hier_inv n wpb p ref self c ref' self' l2' :
  truthy (Some c) = true →
  hier_inv n self c →
  read_ref n wpb p ref self (Some c) = Ok (ref', self', l2') →
  ∃ c', l2' = Some c' ∧ truthy (Some c') = true ∧ hier_inv n self' c'.
Proof.
  intros Ht [Hok Hinv] H.
  apply read_ref_Ok in H
    as (blocks & Hk & [(_ & -> & ->) | (HR & -> & l2a & Hwb & Hfill)]).
  { exists c. split; [done|]. split; [done|]. split; [done|]. done. }
  set (k := target_key (index ref)) in *.
  set (b := get_cache_entry ref wpb) in *.
  assert (target_key (block_index b) = k) as Hb by done.
  pose proof (Hinv k) as Hik. rewrite (set_tags_lookup _ _ _ Hk) in Hik.
  rewrite Ht, andb_true_r in Hwb.
  assert (∃ t2', ∀ c',
            l2' = Some c' →
            truthy (Some c') = true
            ∧ (∀ k', k ≠ k' → set_tags c' k' = set_tags c k')
            ∧ set_tags c' k = t2'
            ∧ set_inv (negb (is_l2 self)) n
                      (pushed n (block_tag <$> blocks) (tag ref)) t2')
    as (t2' & Hc').
  { destruct (bool_decide (Z.of_nat (length blocks) = n)) eqn:Hfull;
      destruct (is_l2 self) eqn:Hl2; simpl in Hwb.
    1,3,4: subst l2a; rewrite Ht in Hfill;
      destruct Hfill as (ca & s2a & [= <-] & Hk2 & ->);
      rewrite (set_tags_lookup _ _ _ Hk2) in Hik;
      eexists; intros c' [= <-];
      (split; [by destruct (decide _); [|apply truthy_store]|]);
      (split; [intros k' Hne; destruct (decide _); [done|];
               by rewrite set_tags_store_ne|]);
      (split; [reflexivity|]);
      pose proof (set_inv_miss_plain _ n _ _ (tag ref) Hik) as Hstep;
      (destruct (decide (tag ref ∈ (block_tag <$> s2a)));
       [rewrite (set_tags_lookup _ _ _ Hk2)
       |rewrite set_tags_store_eq, fmap_pushed]);
      apply Hstep; try done;
      rewrite length_fmap; apply bool_decide_eq_false in Hfull || done;
      done.
    destruct Hwb as (e & c0 & s2 & He & [= <-] & Hke & ->).
    assert (target_key (block_index e) = k) as Hek.
    { eapply Hok; [exact Hk|]. by eapply head_Some_elem_of. }
    rewrite Hek in *. rewrite truthy_store in Hfill.
    destruct Hfill as (ca & s2a & [= <-] & Hk2 & ->).
    unfold store_blocks in Hk2. simpl in Hk2.
    rewrite lookup_insert_eq in Hk2. injection Hk2 as <-.
    rewrite (set_tags_lookup _ _ _ Hke) in Hik.
    apply bool_decide_eq_true in Hfull.
    assert (head (block_tag <$> blocks) = Some (block_tag e)) as Hhd.
    { apply head_Some in He as [r ->]. done. }
    pose proof (set_inv_miss_wb n _ _ (block_tag e) (tag ref) Hik Hhd) as Hstep.
    rewrite length_fmap in Hstep. specialize (Hstep Hfull HR).
    rewrite <- fmap_pushed in Hstep.
    eexists; intros c' [= <-].
    split; [by destruct (decide _); apply truthy_store|].
    split; [intros k' Hne; destruct (decide _);
            by rewrite ?set_tags_store_ne by done|].
    split; [reflexivity|].
    destruct (decide (tag ref ∈ (block_tag <$> pushed n s2 e))).
    - by rewrite set_tags_store_eq.
    - by rewrite set_tags_store_eq, fmap_pushed. }
  assert (∃ c', l2' = Some c') as [c' ->].
  { destruct (truthy l2a); [|].
    - destruct Hfill as (ca & s2a & _ & _ & ->). eauto.
    - subst l2'. destruct (_ && _) in Hwb.
      + destruct Hwb as (e & c0 & s2 & _ & _ & _ & ->). eauto.
      + subst l2a. eauto. }
  destruct (Hc' c' eq_refl) as (Ht' & Hne & Heq & Hset).
  exists c'. split; [done|]. split; [done|]. split.
  - by eapply index_ok_store.
  - intros k'. simpl. destruct (decide (k = k')) as [<-|Hkk].
    + by rewrite set_tags_store_eq, fmap_pushed, Heq.
    + by rewrite set_tags_store_ne, set_tags_mark, (Hne k' Hkk).
Qed.

End Hierarchy.

Section ReadRefs.

Lemma read_refs_tags_distinct_l1 n wpb p refs l2 self refs' self' l2' v :
  tags_distinct self →
  read_refs n wpb p refs l2 self = Ok (refs', self', l2', v) →
  tags_distinct self'.
Proof.
  revert l2 self refs' self' l2' v.
  induction refs as [|r refs IH]; intros l2 self refs' self' l2' v Hd H;
    simpl in H.
  - by simplify_eq.
  - apply bind_Ok in H as ([[r1 s1] c1] & Hr & H).
    apply bind_Ok in H as ([[[rs s2] c2] v2] & Hrec & H). simplify_eq.
    eapply IH; [|exact Hrec]. by eapply read_ref_tags_distinct.
Qed.

Lemma read_refs_l2_untouched n wpb p refs l2 self refs' self' l2' v :
  truthy l2 = false →
  read_refs n wpb p refs l2 self = Ok (refs', self', l2', v) →
  l2' = l2.
Proof.
  revert self refs' self' l2' v.
  induction refs as [|r refs IH]; intros self refs' self' l2' v Ht H;
    simpl in H.
  - by simplify_eq.
  - apply bind_Ok in H as ([[r1 s1] c1] & Hr & H).
    apply bind_Ok in H as ([[[rs s2] c2] v2] & Hrec & H). simplify_eq.
    apply (read_ref_l2_untouched _ _ _ _ _ _ _ _ _ Ht) in Hr. subst c1.
    by eapply IH.
Qed.

Lemma read_refs_hier_inv n wpb p refs c self refs' self' l2' v :
  truthy (Some c) = true →
  hier_inv n self c →
  read_refs n wpb p refs (Some c) self = Ok (refs', self', l2', v) →
  ∃ c', l2' = Some c' ∧ hier_inv n self' c'.
Proof.
  revert c self refs' self' l2' v.
  induction refs as [|r refs IH]; intros c self refs' self' l2' v Ht Hinv H;
    simpl in H.
  - simplify_eq. eauto.
  - apply bind_Ok in H as ([[r1 s1] c1] & Hr & H).
    apply bind_Ok in H as ([[[rs s2] c2] v2] & Hrec & H). simplify_eq.
    destruct (read_ref_hier_inv _ _ _ _ _ _ _ _ _ Ht Hinv Hr)
      as (c' & -> & Ht' & Hinv').
    by eapply IH.
Qed.

Lemma all_sets_empty_set_tags c k : all_sets_empty c → set_tags c k = [].
Proof.
  intros He. unfold set_tags.
  destruct (sets c !! k) as [blocks|] eqn:Hk; [|done].
  by rewrite (He _ _ Hk).
Qed.

Lemma all_sets_empty_hier_inv n self c :
  all_sets_empty self → all_sets_empty c → hier_inv n self c.
Proof.
  intros He Hec. split.
  - intros k blocks b Hk Hb. rewrite (He _ _ Hk) in Hb. by apply elem_of_nil in Hb.
  - intros k. rewrite !all_sets_empty_set_tags by done.
    apply set_inv_refl. constructor.
Qed.

End ReadRefs.

(** Claim C3. Starting from stores whose sets are empty, as the
    constructor makes them, every completed [read_refs] leaves the tags of
    the blocks of each set pairwise distinct, in the store itself and in
    the attached L2, which is filled both by the write-back of the blocks
    that L1 evicts and by the direct fill on a miss. *)
Theorem read_refs_tags_distinct (n wpb : Z) (p : string) (refs : list Reference)
    (l2 : option Cache) (self : Cache)
    (refs' : list Reference) (self' : Cache) (l2' : option Cache) (v : PyValue) :
  all_sets_empty self →
  from_option all_sets_empty True l2 →
  read_refs n wpb p refs l2 self = Ok (refs', self', l2', v) →
  tags_distinct self' ∧ from_option tags_distinct True l2'.
Proof.
  intros He He2 H. split.
  - eapply read_refs_tags_distinct_l1; [|exact H].
    intros k blocks Hk. rewrite (He _ _ Hk). constructor.
  - destruct (truthy l2) eqn:Ht.
    + destruct l2 as [c|]; [|done]. simpl in He2.
      destruct (read_refs_hier_inv _ _ _ _ _ _ _ _ _ _ Ht
                  (all_sets_empty_hier_inv n _ _ He He2) H)
        as (c' & -> & _ & Hinv).
      simpl. apply tags_distinct_set_tags. intros k.
      by destruct (Hinv k) as (_ & Hnd & _).
    + rewrite (read_refs_l2_untouched _ _ _ _ _ _ _ _ _ _ Ht H).
      destruct l2 as [c|]; [|done]. simpl in *.
      intros k blocks Hk. rewrite (He2 _ _ Hk). constructor.
Qed.

(** The statement above, at a concrete store. *)
Lemma read_refs_tags_distinct_witness :
  ∃ refs' self' c',
    all_sets_empty (Cache_init 1 0 false)
    ∧ all_sets_empty (Cache_init 1 0 true)
    ∧ read_refs 2 1 "lru" two_way_refs (Some (Cache_init 1 0 true))
                (Cache_init 1 0 false)
      = Ok (refs', self', Some c', PyNone)
    ∧ sets self' !! "0" = Some [blk "110" 6; blk "111" 7]
    ∧ sets c' !! "0" = Some [blk "101" 5; blk "111" 7]
    ∧ tags_distinct self'
    ∧ tags_distinct c'.
Proof.
  eexists _, _, _.
  split; [apply Cache_init_all_sets_empty|].
  split; [apply Cache_init_all_sets_empty|].
  split; [vm_compute; reflexivity|].
  split; [vm_compute; reflexivity|].
  split; [vm_compute; reflexivity|].
  eapply (read_refs_tags_distinct 2 1 "lru" two_way_refs
            (Some (Cache_init 1 0 true)) (Cache_init 1 0 false)
            _ _ (Some _) PyNone).
  - apply Cache_init_all_sets_empty.
  - apply Cache_init_all_sets_empty.
  - vm_compute; reflexivity.
Defined.

(** * Further properties of the code *)

(** ** The recency list *)

Section RecencyMore.

Lemma list_remove_first_snoc (x : AddrId) (l : list AddrId) :
  x ∉ l → list_remove_first x (l ++ [x]) = l.
Proof.
  induction l as [|y l IH]; simpl; intros Hx.
  - by rewrite decide_True.
  - apply not_elem_of_cons in Hx as [Hne Hx].
    rewrite decide_False by congruence. by rewrite IH.
Qed.

Lemma elem_of_list_remove_first (x y : AddrId) (l : list AddrId) :
  y ∈ l → y ≠ x → y ∈ list_remove_first x l.
Proof.
  induction l as [|z l IH]; simpl; intros Hy Hne; [done|].
  apply elem_of_cons in Hy as [->|Hy].
  - rewrite decide_False by done. apply list_elem_of_here.
  - destruct (decide (z = x)); [done|]. apply list_elem_of_further. by apply IH.
Qed.

Lemma elem_of_mark ref self (y : AddrId) :
  y ∈ recently_used_addrs (mark_ref_as_last_seen ref self)
  ↔ y ∈ recently_used_addrs self ∨ y = (index ref, tag ref).
Proof.
  rewrite mark_recently_used, elem_of_app, list_elem_of_singleton. split.
  - intros [Hy|Hy]; [left|by right]. by apply list_remove_first_subseteq in Hy.
  - intros [Hy|Hy]; [|by right].
    destruct (decide (y = (index ref, tag ref))) as [|Hne]; [by right|left].
    by apply elem_of_list_remove_first.
Qed.

Lemma NoDup_mark ref self :
  NoDup (recently_used_addrs self) →
  NoDup (recently_used_addrs (mark_ref_as_last_seen ref self)).
Proof.
  intros Hnd. rewrite mark_recently_used.
  destruct (list_remove_first_NoDup (index ref, tag ref) _ Hnd) as [H1 H2].
  apply NoDup_app. split; [done|]. split; [|apply NoDup_singleton].
  intros x Hx Hx'. apply list_elem_of_singleton in Hx'. by subst.
Qed.

Lemma Cache_eq (c1 c2 : Cache) :
  sets c1 = sets c2 →
  recently_used_addrs c1 = recently_used_addrs c2 →
  is_l2 c1 = is_l2 c2 →
  c1 = c2.
Proof. destruct c1, c2. simpl. by intros -> -> ->. Qed.

End RecencyMore.

(** Property X1. On a duplicate-free recency list, marking the same
    reference twice in a row gives the cache that marking it once gives. *)
Theorem mark_ref_as_last_seen_idempotent (ref : Reference) (self : Cache) :
  NoDup (recently_used_addrs self) →
  mark_ref_as_last_seen ref (mark_ref_as_last_seen ref self)
  = mark_ref_as_last_seen ref self.
Proof.
  intros Hnd.
  destruct (list_remove_first_NoDup (index ref, tag ref) _ Hnd) as [_ Hnin].
  apply Cache_eq; [done| |done].
  rewrite (mark_recently_used ref (mark_ref_as_last_seen ref self)).
  rewrite mark_recently_used. by rewrite list_remove_first_snoc.
Qed.

(** The statement above, at a concrete store. *)
Lemma mark_ref_as_last_seen_idempotent_witness :
  NoDup (recently_used_addrs lru_demo_l1)
  ∧ mark_ref_as_last_seen (ref_of 5 None (Some "101"))
      (mark_ref_as_last_seen (ref_of 5 None (Some "101")) lru_demo_l1)
    = mark_ref_as_last_seen (ref_of 5 None (Some "101")) lru_demo_l1.
Proof.
  assert (NoDup (recently_used_addrs lru_demo_l1)) as Hnd.
  { apply (bool_decide_unpack _). vm_compute. exact I. }
  split; [exact Hnd|].
  apply (mark_ref_as_last_seen_idempotent (ref_of 5 None (Some "101"))
           lru_demo_l1 Hnd).
Defined.

(** Property X2. A completed [read_refs] keeps the recency list of the
    store free of duplicates, and the list then holds exactly the pairs
    it held before and the (index, tag) pairs of the references read. *)
Theorem read_refs_recency (n wpb : Z) (p : string) (refs : list Reference)
    (l2 : option Cache) (self : Cache)
    (refs' : list Reference) (self' : Cache) (l2' : option Cache) (v : PyValue) :
  NoDup (recently_used_addrs self) →
  read_refs n wpb p refs l2 self = Ok (refs', self', l2', v) →
  NoDup (recently_used_addrs self')
  ∧ ∀ y, y ∈ recently_used_addrs self'
         ↔ y ∈ recently_used_addrs self ∨ y ∈ ids refs.
Proof.
  revert l2 self refs' self' l2' v.
  induction refs as [|r refs IH]; intros l2 self refs' self' l2' v Hnd H;
    simpl in H.
  - simplify_eq. split; [done|]. intros y. unfold ids. simpl.
    rewrite elem_of_nil. tauto.
  - apply bind_Ok in H as ([[r1 s1] c1] & Hr & H).
    apply bind_Ok in H as ([[[rs s2] c2] v2] & Hrec & H). simplify_eq.
    apply read_ref_recently_used in Hr.
    assert (NoDup (recently_used_addrs s1)) as Hnd1.
    { rewrite Hr. by apply NoDup_mark. }
    destruct (IH _ _ _ _ _ _ Hnd1 Hrec) as [Hnd' Hiff].
    split; [done|]. intros y. rewrite Hiff, Hr, elem_of_mark.
    unfold ids. rewrite fmap_cons, elem_of_cons. tauto.
Qed.

(** The statement above, on a concrete run. *)
Lemma read_refs_recency_witness :
  ∃ refs' self' l2',
    NoDup (recently_used_addrs (Cache_init 1 0 false))
    ∧ read_refs 2 1 "lru" two_way_refs (Some (Cache_init 1 0 true))
                (Cache_init 1 0 false)
      = Ok (refs', self', l2', PyNone)
    ∧ recently_used_addrs self'
      = [(None, Some "110"); (None, Some "101"); (None, Some "111")]
    ∧ NoDup (recently_used_addrs self')
    ∧ ∀ y, y ∈ recently_used_addrs self'
           ↔ y ∈ recently_used_addrs (Cache_init 1 0 false)
             ∨ y ∈ ids two_way_refs.
Proof.
  eexists _, _, _.
  split; [constructor|].
  split; [vm_compute; reflexivity|].
  split; [vm_compute; reflexivity|].
  eapply (read_refs_recency 2 1 "lru" two_way_refs
            (Some (Cache_init 1 0 true)) (Cache_init 1 0 false)).
  - constructor.
  - vm_compute; reflexivity.
Defined.

(** ** Lookups agree *)

Section LookupMore.

Lemma existsb_find {A : Type} (f : A → bool) (l : list A) :
  existsb f l = bool_decide (is_Some (find f l)).
Proof.
  induction l as [|x l IH]; simpl; [done|].
  by destruct (f x).
Qed.

Lemma find_has_tag_first (t : option string) (blocks : list Block) (b : Block) :
  find (has_tag t) blocks = Some b →
  block_tag b = t
  ∧ ∃ i, blocks !! i = Some b
         ∧ ∀ j b', (j < i)%nat → blocks !! j = Some b' → block_tag b' ≠ t.
Proof.
  induction blocks as [|x blocks IH]; simpl; [done|].
  destruct (has_tag t x) eqn:Hx.
  - intros [= ->]. apply bool_decide_eq_true in Hx. split; [done|].
    exists 0%nat. split; [done|]. intros j b' Hj. lia.
  - intros Hf. destruct (IH Hf) as (Ht & i & Hi & Hfirst). split; [done|].
    exists (S i). split; [done|]. intros [|j] b' Hj Hb'.
    + simpl in Hb'. injection Hb' as <-. by apply bool_decide_eq_false in Hx.
    + simpl in Hb'. eapply Hfirst; [|exact Hb']. lia.
Qed.

End LookupMore.

(** Property X3. For a defined index [is_hit] and [get_block] agree:
    [is_hit] returns [True] exactly when [get_block] returns a block; and
    the block that [get_block] returns is the first block of the addressed
    set that carries the tag. *)
Theorem is_hit_agrees_with_get_block (self : Cache) (k : string)
    (t : option string) :
  is_hit self (Some k) t
  = Ok (bool_decide (is_Some (get_block self (Some k) t)))
  ∧ ∀ b, get_block self (Some k) t = Some b →
         block_tag b = t
         ∧ ∃ blocks i,
             sets self !! k = Some blocks ∧ blocks !! i = Some b
             ∧ ∀ j b', (j < i)%nat → blocks !! j = Some b' → block_tag b' ≠ t.
Proof.
  unfold is_hit, get_block.
  destruct (sets self !! k) as [blocks|] eqn:Hk.
  - split; [by rewrite existsb_find|].
    intros b Hb. destruct (find_has_tag_first _ _ _ Hb) as (Ht & i & Hi & Hfirst).
    split; [done|]. by exists blocks, i.
  - done.
Qed.

(** The statement above, at a concrete store. *)
Lemma is_hit_agrees_with_get_block_witness :
  is_hit direct_demo_l1 (Some "00") (Some "0") = Ok true
  ∧ get_block direct_demo_l1 (Some "00") (Some "0") = Some direct_demo_block
  ∧ block_tag direct_demo_block = Some "0"
  ∧ ∃ blocks i,
      sets direct_demo_l1 !! "00" = Some blocks
      ∧ blocks !! i = Some direct_demo_block
      ∧ ∀ j b', (j < i)%nat → blocks !! j = Some b' → block_tag b' ≠ Some "0".
Proof.
  split; [reflexivity|]. split; [reflexivity|].
  apply (is_hit_agrees_with_get_block direct_demo_l1 "00" (Some "0")).
  reflexivity.
Defined.

(** ** [replace_block] *)

Section ReplaceBlock.

Lemma replace_first_None rt new_entry blocks :
  rt ∉ (block_tag <$> blocks) → replace_first rt new_entry blocks = None.
Proof.
  induction blocks as [|x blocks IH]; simpl; [done|].
  intros [Hne Hnin]%not_elem_of_cons.
  rewrite bool_decide_eq_false_2 by done. by rewrite IH.
Qed.

Lemma replace_first_Some rt new_entry blocks :
  rt ∈ (block_tag <$> blocks) →
  ∃ i b,
    blocks !! i = Some b ∧ block_tag b = rt
    ∧ (∀ j b', (j < i)%nat → blocks !! j = Some b' → block_tag b' ≠ rt)
    ∧ replace_first rt new_entry blocks = Some (<[i := new_entry]> blocks).
Proof.
  induction blocks as [|x blocks IH]; simpl.
  - by intros ?%elem_of_nil.
  - intros Hin. destruct (decide (block_tag x = rt)) as [Hx|Hx].
    + exists 0%nat, x. rewrite bool_decide_eq_true_2 by done.
      split; [done|]. split; [done|]. split; [|done]. intros j b' Hj. lia.
    + apply elem_of_cons in Hin as [Hin|Hin]; [congruence|].
      destruct (IH Hin) as (i & b & Hi & Hb & Hfirst & Hrep).
      exists (S i), b. rewrite bool_decide_eq_false_2 by done.
      split; [done|]. split; [done|]. split.
      * intros [|j] b' Hj Hb'; simpl in Hb'; [by simplify_eq|].
        eapply Hfirst; [|exact Hb']. lia.
      * by rewrite Hrep.
Qed.

Lemma replace_scan_no_match recents ai new_entry blocks :
  (∀ rt, (ai, rt) ∈ recents → rt ∉ (block_tag <$> blocks)) →
  replace_scan recents ai new_entry blocks = blocks.
Proof.
  induction recents as [|[ri rt] recents IH]; simpl; [done|].
  intros Hno. case_bool_decide as Hri.
  - subst ri. rewrite replace_first_None.
    + apply IH. intros rt' Hin. apply Hno. by apply list_elem_of_further.
    + apply Hno. apply list_elem_of_here.
  - apply IH. intros rt' Hin. apply Hno. by apply list_elem_of_further.
Qed.

Lemma replace_scan_first l1 rt l2 ai new_entry blocks :
  (∀ rt', (ai, rt') ∈ l1 → rt' ∉ (block_tag <$> blocks)) →
  rt ∈ (block_tag <$> blocks) →
  ∃ i b,
    blocks !! i = Some b ∧ block_tag b = rt
    ∧ (∀ j b', (j < i)%nat → blocks !! j = Some b' → block_tag b' ≠ rt)
    ∧ replace_scan (l1 ++ (ai, rt) :: l2) ai new_entry blocks
      = <[i := new_entry]> blocks.
Proof.
  intros Hno Hin. induction l1 as [|[ri rt'] l1 IH]; simpl.
  - destruct (replace_first_Some rt new_entry blocks Hin)
      as (i & b & Hi & Hb & Hfirst & Hrep).
    exists i, b. rewrite bool_decide_eq_true_2 by done. by rewrite Hrep.
  - destruct IH as (i & b & Hi & Hb & Hfirst & Hrep).
    { intros rt'' Hin'. apply Hno. by apply list_elem_of_further. }
    exists i, b. do 3 (split; [done|]).
    case_bool_decide as Hri; [|done]. subst ri.
    rewrite replace_first_None; [done|]. apply Hno. apply list_elem_of_here.
Qed.

Lemma replace_block_scan self blocks p ai new_entry :
  replace_block self blocks p ai new_entry
  = replace_scan (scan_order self p) ai new_entry blocks.
Proof. done. Qed.

Lemma elem_of_scan_order self p (y : AddrId) :
  y ∈ scan_order self p ↔ y ∈ recently_used_addrs self.
Proof.
  unfold scan_order. case_bool_decide; [|done]. apply elem_of_reverse.
Qed.

Lemma not_elem_of_tags (ai : option string) (l : list AddrId)
    (blocks : list Block) :
  (∀ b, b ∈ blocks → (ai, block_tag b) ∉ l) →
  ∀ rt, (ai, rt) ∈ l → rt ∉ (block_tag <$> blocks).
Proof.
  intros Hno rt Hin (b & -> & Hb)%list_elem_of_fmap. by apply (Hno b).
Qed.

End ReplaceBlock.

(** Property X4. When no pair of the recency list pairs the addressed
    index with the tag of a block of the set, [replace_block] leaves the
    set as it is: the new entry is dropped. *)
Theorem replace_block_no_match (self : Cache) (blocks : list Block)
    (p : string) (ai : option string) (new_entry : Block) :
  (∀ b, b ∈ blocks → (ai, block_tag b) ∉ recently_used_addrs self) →
  replace_block self blocks p ai new_entry = blocks.
Proof.
  intros Hno. rewrite replace_block_scan. apply replace_scan_no_match.
  apply not_elem_of_tags. intros b Hb Hin.
  apply elem_of_scan_order in Hin. by apply (Hno b).
Qed.

(** The statement above, at a concrete store. *)
Lemma replace_block_no_match_witness :
  (∀ b, b ∈ [blk "101" 5; blk "110" 6] →
        (Some "00", block_tag b) ∉ recently_used_addrs lru_demo_l1)
  ∧ replace_block lru_demo_l1 [blk "101" 5; blk "110" 6] "lru" (Some "00")
                  (blk "111" 7)
    = [blk "101" 5; blk "110" 6].
Proof.
  assert (∀ b, b ∈ [blk "101" 5; blk "110" 6] →
               (Some "00", block_tag b) ∉ recently_used_addrs lru_demo_l1) as Hno.
  { intros b _ Hin. simpl in Hin.
    repeat (apply elem_of_cons in Hin as [Hin|Hin]; [discriminate|]).
    by apply elem_of_nil in Hin. }
  split; [exact Hno|].
  apply (replace_block_no_match lru_demo_l1 [blk "101" 5; blk "110" 6] "lru"
           (Some "00") (blk "111" 7) Hno).
Defined.

(** Property X5. [replace_block] follows the policy: it scans the
    recency list from the least recent pair (or from the most recent one
    under "mru"), and the first pair that has the addressed index and the
    tag of a block of the set decides: the first block with that tag is
    overwritten by the new entry, and nothing else changes. *)
Theorem replace_block_first_match (self : Cache) (blocks : list Block)
    (p : string) (ai : option string) (new_entry : Block)
    (l1 l2 : list AddrId) (rt : option string) :
  scan_order self p = l1 ++ (ai, rt) :: l2 →
  (∀ b, b ∈ blocks → (ai, block_tag b) ∉ l1) →
  rt ∈ (block_tag <$> blocks) →
  ∃ i b,
    blocks !! i = Some b ∧ block_tag b = rt
    ∧ (∀ j b', (j < i)%nat → blocks !! j = Some b' → block_tag b' ≠ rt)
    ∧ replace_block self blocks p ai new_entry = <[i := new_entry]> blocks.
Proof.
  intros Hscan Hno Hin. rewrite replace_block_scan, Hscan.
  apply replace_scan_first; [|done]. by apply not_elem_of_tags.
Qed.

(** The statement above, at a concrete store. *)
Lemma replace_block_first_match_witness :
  scan_order lru_demo_l1 "mru"
  = [(None, Some "111")] ++ (None, Some "101") :: [(None, Some "110")]
  ∧ ∃ i b,
      [blk "101" 5; blk "110" 6] !! i = Some b ∧ block_tag b = Some "101"
      ∧ (∀ j b', (j < i)%nat → [blk "101" 5; blk "110" 6] !! j = Some b' →
                 block_tag b' ≠ Some "101")
      ∧ replace_block lru_demo_l1 [blk "101" 5; blk "110" 6] "mru" None
                      (blk "111" 7)
        = <[i := blk "111" 7]> [blk "101" 5; blk "110" 6].
Proof.
  split; [reflexivity|].
  apply (replace_block_first_match lru_demo_l1 [blk "101" 5; blk "110" 6] "mru"
           None (blk "111" 7) [(None, Some "111")] [(None, Some "110")]
           (Some "101")).
  - reflexivity.
  - intros b Hb Hin. apply list_elem_of_singleton in Hin.
    repeat (apply elem_of_cons in Hb as [->|Hb]; [discriminate|]).
    by apply elem_of_nil in Hb.
  - apply list_elem_of_here.
Defined.

(** Property X6. [replace_block] never changes the number of blocks of
    the set: the set afterwards is the set before, or the set before with
    one block, whose tag the recency list pairs with the addressed index,
    overwritten by the new entry. *)
Theorem replace_block_overwrites_one (self : Cache) (blocks : list Block)
    (p : string) (ai : option string) (new_entry : Block) :
  length (replace_block self blocks p ai new_entry) = length blocks
  ∧ (replace_block self blocks p ai new_entry = blocks
     ∨ ∃ i b,
         blocks !! i = Some b
         ∧ (ai, block_tag b) ∈ recently_used_addrs self
         ∧ replace_block self blocks p ai new_entry = <[i := new_entry]> blocks).
Proof.
  assert (replace_block self blocks p ai new_entry = blocks
          ∨ ∃ i b,
              blocks !! i = Some b
              ∧ (ai, block_tag b) ∈ recently_used_addrs self
              ∧ replace_block self blocks p ai new_entry
                = <[i := new_entry]> blocks) as H.
  { rewrite replace_block_scan.
    assert (∀ y, y ∈ scan_order self p → y ∈ recently_used_addrs self) as Hsub.
    { intros y. apply elem_of_scan_order. }
    revert Hsub. generalize (scan_order self p). intros l.
    induction l as [|[ri rt] l IH]; simpl; intros Hsub; [by left|].
    assert (∀ y, y ∈ l → y ∈ recently_used_addrs self) as Hsub'.
    { intros y Hy. apply Hsub. by apply list_elem_of_further. }
    case_bool_decide as Hri; [|by apply IH]. subst ri.
    destruct (decide (rt ∈ (block_tag <$> blocks))) as [Hin|Hnin].
    - destruct (replace_first_Some rt new_entry blocks Hin)
        as (i & b & Hi & Hb & _ & Hrep).
      right. exists i, b. rewrite Hrep, Hb. split; [done|]. split; [|done].
      apply Hsub. apply list_elem_of_here.
    - rewrite replace_first_None by done. by apply IH. }
  split; [|done].
  destruct H as [-> | (i & b & _ & _ & ->)]; [done|]. apply length_insert.
Qed.

(** ** Insertion *)

Section InsertMore.

Lemma set_block_last_completes p n i b self blocks :
  sets self !! target_key i = Some blocks →
  (blocks = [] → n ≠ 0%Z) →
  set_block_last p n i b self
  = Ok (store_blocks (target_key i) (pushed n blocks b) self).
Proof.
  intros Hk Hne. unfold set_block_last, pushed. rewrite Hk.
  case_bool_decide as Hn; [|done].
  destruct blocks as [|e blocks']; [|done].
  simpl in Hn. by destruct Hne.
Qed.

Lemma find_has_tag_snoc (t : option string) (l : list Block) (b : Block) :
  t ∉ (block_tag <$> l) → block_tag b = t →
  find (has_tag t) (l ++ [b]) = Some b.
Proof.
  intros Hnin Hb. induction l as [|x l IH]; simpl.
  - unfold has_tag. by rewrite bool_decide_eq_true_2.
  - rewrite fmap_cons in Hnin. apply not_elem_of_cons in Hnin as [Hne Hnin].
    unfold has_tag at 1. rewrite bool_decide_eq_false_2 by congruence.
    by apply IH.
Qed.

Lemma elem_of_pushed_new {A : Type} n (l : list A) x : x ∈ pushed n l x.
Proof. unfold pushed. apply elem_of_app. right. apply list_elem_of_here. Qed.

Lemma not_elem_of_tail {A : Type} (l : list A) x : x ∉ l → x ∉ tail l.
Proof. destruct l; [done|]. simpl. by intros [_ ?]%not_elem_of_cons. Qed.


Lemma foldl_pushed_over {A : Type} (n : Z) (l bs : list A) :
  (n < Z.of_nat (length l))%Z → foldl (pushed n) l bs = l ++ bs.
Proof.
  revert l. induction bs as [|b bs IH]; intros l Hl; simpl.
  - by rewrite app_nil_r.
  - unfold pushed at 2. rewrite bool_decide_eq_false_2 by lia.
    rewrite IH; [by rewrite <- (assoc_L (++))|].
    rewrite length_app. simpl. lia.
Qed.

(** Repeated insertion under one index pushes the blocks one after the
    other on the target set and touches no other set. *)
Lemma insert_all_Ok p n i bs self blocks :
  sets self !! target_key i = Some blocks →
  (blocks = [] → n ≠ 0%Z) →
  ∃ self',
    insert_all p n i bs self = Ok self'
    ∧ sets self' !! target_key i = Some (foldl (pushed n) blocks bs)
    ∧ ∀ k, k ≠ target_key i → sets self' !! k = sets self !! k.
Proof.
  revert self blocks. induction bs as [|b bs IH]; intros self blocks Hk Hne; simpl.
  - by exists self.
  - rewrite set_block_no_l2, (set_block_last_completes _ _ _ _ _ _ Hk Hne). simpl.
    destruct (IH (store_blocks (target_key i) (pushed n blocks b) self)
                 (pushed n blocks b)) as (self' & Hall & Hset & Hother).
    { unfold store_blocks. simpl. apply lookup_insert_eq. }
    { unfold pushed. intros He. by apply app_nil in He as [_ ?]. }
    exists self'. split; [done|]. split; [done|].
    intros k Hkne. rewrite (Hother k Hkne). unfold store_blocks. simpl.
    by rewrite lookup_insert_ne.
Qed.

End InsertMore.

(** Property X7. Insertion then lookup: after a completed [set_block]
    under index [i], [is_hit] under [i] with the tag of the new entry
    returns [True]; and when the index is defined and the set did not have
    the tag before, [get_block] returns the new entry. *)
Theorem set_block_then_lookup (p : string) (n : Z) (i : option string)
    (b : Block) (l2 : option Cache) (self : Cache)
    (self' : Cache) (l2' : option Cache) (wb : list Block) :
  set_block p n i b l2 self = Ok (self', l2', wb) →
  is_hit self' i (block_tag b) = Ok true
  ∧ ∀ k blocks,
      i = Some k → sets self !! k = Some blocks →
      block_tag b ∉ (block_tag <$> blocks) →
      get_block self' (Some k) (block_tag b) = Some b.
Proof.
  intros H. apply set_block_Ok in H as (blocks & Hk & _ & -> & _).
  split.
  - rewrite (is_hit_target _ _ _ (pushed n blocks b)).
    + f_equal. apply existsb_has_tag, list_elem_of_fmap.
      exists b. split; [done|]. apply elem_of_pushed_new.
    + unfold store_blocks. simpl. apply lookup_insert_eq.
  - intros k blocks' -> Hk' Hnin. simpl in Hk. simplify_eq.
    unfold get_block, store_blocks. simpl. rewrite lookup_insert_eq.
    unfold pushed. apply find_has_tag_snoc; [|done].
    case_bool_decide; [|done]. rewrite fmap_tail. by apply not_elem_of_tail.
Qed.

(** The statement above, at a concrete store. *)
Lemma set_block_then_lookup_witness :
  ∃ self' l2' wb,
    set_block "lru" 1 (Some "00")
              (get_cache_entry (ref_of 4 (Some "00") (Some "1")) 1)
              (Some direct_demo_l2) direct_demo_l1
    = Ok (self', l2', wb)
    ∧ is_hit self' (Some "00") (Some "1") = Ok true
    ∧ get_block self' (Some "00") (Some "1")
      = Some (get_cache_entry (ref_of 4 (Some "00") (Some "1")) 1).
Proof.
  eexists _, _, _. split; [vm_compute; reflexivity|].
  destruct (set_block_then_lookup "lru" 1 (Some "00")
              (get_cache_entry (ref_of 4 (Some "00") (Some "1")) 1)
              (Some direct_demo_l2) direct_demo_l1 _ _ _ eq_refl) as [Hhit Hget].
  split; [exact Hhit|].
  apply (Hget "00" [direct_demo_block]); [reflexivity|reflexivity|].
  intros Hin. apply list_elem_of_singleton in Hin. discriminate.
Defined.



(** Property X9. [set_block] evicts only from a set that holds exactly
    [n] blocks: a set that holds more than [n] blocks is never brought
    back within capacity, every further insertion just appends. *)
Theorem insert_all_over_capacity (p : string) (n : Z) (i : option string)
    (bs : list Block) (self : Cache) (blocks : list Block) :
  sets self !! target_key i = Some blocks →
  (n < Z.of_nat (length blocks))%Z →
  ∃ self',
    insert_all p n i bs self = Ok self'
    ∧ sets self' !! target_key i = Some (blocks ++ bs).
Proof.
  intros Hk Hlen.
  destruct (insert_all_Ok p n i bs self blocks Hk) as (self' & H & Hset & _).
  { intros ->. simpl in Hlen. lia. }
  exists self'. split; [done|]. by rewrite Hset, foldl_pushed_over.
Qed.

(** The statement above, at a concrete store. *)
Lemma insert_all_over_capacity_witness :
  ∃ self',
    insert_all "lru" 1 None [blk "111" 7; blk "000" 0] lru_demo_l1 = Ok self'
    ∧ sets self' !! "0"
      = Some [blk "101" 5; blk "110" 6; blk "111" 7; blk "000" 0].
Proof.
  destruct (insert_all_over_capacity "lru" 1 None [blk "111" 7; blk "000" 0]
              lru_demo_l1 [blk "101" 5; blk "110" 6])
    as (self' & H & Hset).
  - reflexivity.
  - simpl. lia.
  - exists self'. split; [exact H | exact Hset].
Defined.

(** ** Reading references *)

Section ReadMore.

Lemma dom_store_blocks k blocks blocks' c :
  sets c !! k = Some blocks →
  dom (sets (store_blocks k blocks' c)) = dom (sets c).
Proof.
  intros Hk. unfold store_blocks. simpl. apply dom_insert_lookup_L. eauto.
Qed.

(** The reference after the loop body: the status says whether the target
    set had the tag. *)
Lemma read_ref_ref' n wpb p ref self l2 ref' self' l2' blocks :
  read_ref n wpb p ref self l2 = Ok (ref', self', l2') →
  sets self !! target_key (index ref) = Some blocks →
  ref' = set_cache_status
           (if decide (tag ref ∈ (block_tag <$> blocks)) then hit else miss) ref.
Proof.
  intros H Hk. destruct (read_ref_status _ _ _ _ _ _ _ _ _ H) as [s ->].
  unfold read_ref in H.
  rewrite (is_hit_target _ _ _ blocks) in H by by rewrite mark_sets.
  simpl in H. destruct (existsb (has_tag (tag ref)) blocks) eqn:Hex.
  - apply existsb_has_tag in Hex. rewrite decide_True by done. by simplify_eq.
  - apply existsb_has_tag_false in Hex. rewrite decide_False by done.
    apply bind_Ok in H as ([[s1 c1] wb] & _ & H).
    destruct c1 as [c|]; [|by simplify_eq].
    destruct (truthy (Some c)); [|by simplify_eq].
    apply bind_Ok in H as (h2 & _ & H). destruct h2; [by simplify_eq|].
    apply bind_Ok in H as (c' & _ & H). by simplify_eq.
Qed.

(** The loop body changes neither the keys nor the flags, nor the recency
    list of the next level, nor the sets of L1 under other keys. *)
Lemma read_ref_frame n wpb p ref self l2 ref' self' l2' :
  read_ref n wpb p ref self l2 = Ok (ref', self', l2') →
  dom (sets self') = dom (sets self)
  ∧ is_l2 self' = is_l2 self
  ∧ (∀ k, k ≠ target_key (index ref) → sets self' !! k = sets self !! k)
  ∧ match l2, l2' with
    | Some c, Some c' =>
        dom (sets c') = dom (sets c)
        ∧ recently_used_addrs c' = recently_used_addrs c
        ∧ is_l2 c' = is_l2 c
    | None, None => True
    | _, _ => False
    end.
Proof.
  intros H.
  apply read_ref_Ok in H
    as (blocks & Hk & [(_ & -> & ->) | (_ & -> & l2a & Hwb & Hfill)]).
  { do 3 (split; [done|]). by destruct l2. }
  split; [by rewrite (dom_store_blocks _ blocks) by by rewrite mark_sets|].
  split; [done|].
  split.
  { intros k Hne. unfold store_blocks. simpl. by rewrite lookup_insert_ne. }
  assert (match l2, l2a with
          | Some c, Some c' =>
              dom (sets c') = dom (sets c)
              ∧ recently_used_addrs c' = recently_used_addrs c
              ∧ is_l2 c' = is_l2 c
          | None, None => True
          | _, _ => False
          end) as Ha.
  { destruct (_ && _ && _).
    - destruct Hwb as (e & c & s2 & _ & -> & Hke & ->).
      split; [by apply (dom_store_blocks _ s2)|]. done.
    - subst l2a. by destruct l2. }
  destruct (truthy l2a).
  - destruct Hfill as (ca & s2a & -> & Hk2 & ->).
    destruct l2 as [c|]; [|done]. destruct Ha as (Hd & Hr & Hf).
    destruct (decide _); [done|].
    split; [by rewrite (dom_store_blocks _ s2a)|]. done.
  - by subst l2'.
Qed.

(** The loop body does for L1 what it does without next level. *)
Lemma read_ref_no_l2 n wpb p ref self l2 ref' self' l2' :
  read_ref n wpb p ref self l2 = Ok (ref', self', l2') →
  read_ref n wpb p ref self None = Ok (ref', self', None).
Proof.
  intros H.
  destruct (read_ref_Ok _ _ _ _ _ _ _ _ _ H) as (blocks & Hk & _).
  pose proof (read_ref_ref' _ _ _ _ _ _ _ _ _ _ H Hk) as ->.
  unfold read_ref in *.
  rewrite (is_hit_target _ _ _ blocks) in * by by rewrite mark_sets.
  simpl in *. destruct (existsb (has_tag (tag ref)) blocks) eqn:Hex.
  - simplify_eq. apply existsb_has_tag in Hex. by rewrite decide_True.
  - apply existsb_has_tag_false in Hex. rewrite decide_False by done.
    apply bind_Ok in H as ([[s1 c1] wb] & Hs & H).
    apply set_block_self in Hs.
    rewrite set_block_no_l2, Hs. simpl.
    assert (self' = s1) as ->; [|done].
    destruct c1 as [c|]; [|by simplify_eq].
    destruct (truthy (Some c)); [|by simplify_eq].
    apply bind_Ok in H as (h2 & _ & H). destruct h2; [by simplify_eq|].
    apply bind_Ok in H as (c' & _ & H). by simplify_eq.
Qed.

(** With at least one block per set, the loop body completes when the
    target set exists in L1 and every set of L1 exists in the next
    level. *)
Lemma read_ref_completes n wpb p ref self l2 :
  (1 <= n)%Z →
  index_ok self →
  is_Some (sets self !! target_key (index ref)) →
  (∀ c, l2 = Some c → dom (sets self) ⊆ dom (sets c)) →
  ∃ ref' self' l2', read_ref n wpb p ref self l2 = Ok (ref', self', l2').
Proof.
  intros Hn Hok [blocks Hk] Hsub. unfold read_ref.
  rewrite (is_hit_target _ _ _ blocks) by by rewrite mark_sets.
  simpl. destruct (existsb (has_tag (tag ref)) blocks); [eauto|].
  change (index (set_cache_status miss ref)) with (index ref).
  change (tag (set_cache_status miss ref)) with (tag ref).
  change (get_cache_entry (set_cache_status miss ref) wpb)
    with (get_cache_entry ref wpb).
  set (k := target_key (index ref)) in *.
  set (b := get_cache_entry ref wpb).
  set (self0 := mark_ref_as_last_seen ref self).
  assert (∀ (c : Cache) k', is_Some (sets self !! k') → dom (sets self) ⊆ dom (sets c) →
            ∀ i x, target_key i = k' →
              ∃ c', set_block_last p n i x c = Ok c'
                    ∧ dom (sets c') = dom (sets c)) as Hlast.
  { intros c k' Hk' Hdom i x Hi.
    assert (is_Some (sets c !! k')) as [s2 Hs2].
    { apply elem_of_dom, Hdom, elem_of_dom. done. }
    subst k'. eexists. split.
    - apply (set_block_last_completes _ _ _ _ _ s2 Hs2). intros _. lia.
    - by apply (dom_store_blocks _ s2). }
  assert (∃ s1 l2a wb,
            set_block p n (index ref) b l2 self0 = Ok (s1, l2a, wb)
            ∧ ∀ c, l2a = Some c → dom (sets self) ⊆ dom (sets c)) as
    (s1 & l2a & wb & -> & Hsub').
  { unfold set_block. fold k. unfold self0 at 1. rewrite mark_sets, Hk.
    case_bool_decide as Hfull; [|eauto 10].
    destruct blocks as [|e blocks']; [simpl in Hfull; lia|].
    destruct l2 as [c|]; [|eauto 10].
    destruct (truthy (Some c) && negb (is_l2 self0)); [|eauto 10].
    assert (target_key (block_index e) = k) as Hek.
    { eapply Hok; [exact Hk|]. apply list_elem_of_here. }
    destruct (Hlast c k (ex_intro _ _ Hk) (Hsub c eq_refl) (block_index e) e Hek)
      as (c' & -> & Hdom).
    simpl. do 3 eexists. split; [done|].
    intros c'' [= <-]. rewrite Hdom. by apply Hsub. }
  simpl. destruct l2a as [ca|]; [|eauto].
  destruct (truthy (Some ca)); [|eauto].
  assert (is_Some (sets ca !! k)) as [s2a Hs2a].
  { apply elem_of_dom. apply (Hsub' ca eq_refl). apply elem_of_dom. eauto. }
  rewrite (is_hit_target _ _ _ s2a Hs2a). simpl.
  destruct (existsb (has_tag (tag ref)) s2a); [eauto|].
  rewrite (set_block_last_completes _ _ _ _ _ s2a Hs2a) by (intros _; lia).
  simpl. eauto.
Qed.

End ReadMore.

(** ** Marking on every access *)

(** Claim C8. Processing a reference in [read_refs], hit or miss, marks
    it as last seen in the top-level store: whenever the loop body
    completes, the reference has got the status hit or miss, and its
    (index, tag) pair has been taken out of the recency list if present
    and appended, so it ends up in the last position. And the loop body
    does complete, with at least one block per set, when the set of the
    reference exists in the store, every block of the store sits in the
    set its own index designates and every set of the store exists in the
    attached next level. *)
Theorem read_ref_marks_last_seen (n wpb : Z) (p : string) (ref : Reference)
    (self : Cache) (l2 : option Cache) :
  (∀ (ref' : Reference) (self' : Cache) (l2' : option Cache),
     read_ref n wpb p ref self l2 = Ok (ref', self', l2') →
     (cache_status ref' = Some hit ∨ cache_status ref' = Some miss)
     ∧ recently_used_addrs self'
       = recently_used_addrs (mark_ref_as_last_seen ref self)
     ∧ recently_used_addrs self'
       = list_remove_first (index ref, tag ref) (recently_used_addrs self)
           ++ [(index ref, tag ref)]
     ∧ last (recently_used_addrs self') = Some (index ref, tag ref)
     ∧ ((index ref, tag ref) ∉ recently_used_addrs self →
        recently_used_addrs self'
        = recently_used_addrs self ++ [(index ref, tag ref)])
     ∧ (NoDup (recently_used_addrs self) → NoDup (recently_used_addrs self')))
  ∧ ((1 <= n)%Z →
     index_ok self →
     is_Some (sets self !! target_key (index ref)) →
     (∀ c, l2 = Some c → dom (sets self) ⊆ dom (sets c)) →
     ∃ ref' self' l2', read_ref n wpb p ref self l2 = Ok (ref', self', l2')).
Proof.
  split; [|apply read_ref_completes].
  intros ref' self' l2' H. split.
  { destruct (read_ref_status _ _ _ _ _ _ _ _ _ H) as [[] ->]; simpl; auto. }
  apply read_ref_recently_used in H.
  rewrite H, mark_recently_used. repeat split.
  - apply last_snoc.
  - intros Hn. by rewrite list_remove_first_notin.
  - intros Hnd.
    destruct (list_remove_first_NoDup (index ref, tag ref) _ Hnd) as [H1 H2].
    apply NoDup_app. repeat split; [done| |apply NoDup_singleton].
    intros x Hx Hx'. apply list_elem_of_singleton in Hx'. by subst.
Qed.

(** The statement above, at a concrete hierarchy: the two-way set holds
    the blocks 101 and 110. A reference to 110 is a hit, and its pair
    moves from the first to the last position of the recency list; a
    reference to 000 is a miss, and its pair is appended. *)
Lemma read_ref_marks_last_seen_witness :
  (∃ ref' self' l2',
     read_ref 2 1 "lru" (ref_of 6 None (Some "110"))
       lru_demo_l1 (Some lru_demo_l2) = Ok (ref', self', l2')
     ∧ cache_status ref' = Some hit
     ∧ recently_used_addrs lru_demo_l1
       = [(None, Some "110"); (None, Some "101"); (None, Some "111")]
     ∧ recently_used_addrs self'
       = [(None, Some "101"); (None, Some "111"); (None, Some "110")])
  ∧ (∃ ref' self' l2',
       read_ref 2 1 "lru" (ref_of 0 None (Some "000"))
         lru_demo_l1 (Some lru_demo_l2) = Ok (ref', self', l2')
       ∧ cache_status ref' = Some miss
       ∧ recently_used_addrs self'
         = [(None, Some "110"); (None, Some "101"); (None, Some "111");
            (None, Some "000")]).
Proof.
  assert (index_ok lru_demo_l1) as Hok.
  { intros k blocks b Hk Hb. unfold lru_demo_l1 in Hk. simpl in Hk.
    apply lookup_singleton_Some in Hk as [<- <-].
    repeat (apply elem_of_cons in Hb as [->|Hb]; [reflexivity|]).
    by apply elem_of_nil in Hb. }
  assert (∀ c, Some lru_demo_l2 = Some c →
               dom (sets lru_demo_l1) ⊆ dom (sets c)) as Hsub.
  { intros c [= <-]. reflexivity. }
  split.
  - destruct (read_ref_marks_last_seen 2 1 "lru" (ref_of 6 None (Some "110"))
                lru_demo_l1 (Some lru_demo_l2)) as [Hmark Hcompl].
    destruct Hcompl as (ref' & self' & l2' & Hr);
      [lia | exact Hok | by eexists | exact Hsub |].
    destruct (Hmark _ _ _ Hr) as (_ & _ & Hl & _).
    exists ref', self', l2'. split; [exact Hr|].
    split; [|split; [reflexivity | exact Hl]].
    vm_compute in Hr. by simplify_eq.
  - destruct (read_ref_marks_last_seen 2 1 "lru" (ref_of 0 None (Some "000"))
                lru_demo_l1 (Some lru_demo_l2)) as [Hmark Hcompl].
    destruct Hcompl as (ref' & self' & l2' & Hr);
      [lia | exact Hok | by eexists | exact Hsub |].
    destruct (Hmark _ _ _ Hr) as (_ & _ & Hl & _).
    exists ref', self', l2'. split; [exact Hr|].
    split; [|exact Hl].
    vm_compute in Hr. by simplify_eq.
Defined.

(** Property X10. A reference whose set does not exist stops the run:
    when the target key of the first reference is not a key of the store,
    [read_refs] raises [KeyError], whatever follows. *)
Theorem read_refs_missing_set (n wpb : Z) (p : string) (r : Reference)
    (refs : list Reference) (l2 : option Cache) (self : Cache) :
  sets self !! target_key (index r) = None →
  read_refs n wpb p (r :: refs) l2 self = Raise KeyError.
Proof.
  intros Hk. simpl. unfold read_ref, is_hit, set_block.
  destruct (index r) as [k|] eqn:Hi; simpl in *.
  - rewrite Hk. simpl. rewrite Hi. simpl. by rewrite Hk.
  - by rewrite Hk.
Qed.

(** The statement above, at a concrete store. *)
Lemma read_refs_missing_set_witness :
  sets (Cache_init 4 2 false) !! target_key (index (ref_of 5 None (Some "101")))
  = None
  ∧ read_refs 1 1 "lru" [ref_of 5 None (Some "101")] None (Cache_init 4 2 false)
    = Raise KeyError.
Proof.
  split; [reflexivity|].
  apply (read_refs_missing_set 1 1 "lru" (ref_of 5 None (Some "101")) [] None
           (Cache_init 4 2 false)).
  reflexivity.
Defined.

(** Property X11. With zero blocks per set, the first reference that
    addresses an empty set stops the run with [IndexError]: the set counts
    as full and [pop(0)] finds no block. *)
Theorem read_refs_zero_blocks (wpb : Z) (p : string) (r : Reference)
    (refs : list Reference) (l2 : option Cache) (self : Cache) :
  sets self !! target_key (index r) = Some [] →
  read_refs 0 wpb p (r :: refs) l2 self = Raise IndexError.
Proof.
  intros Hk. simpl. unfold read_ref.
  rewrite (is_hit_target _ _ _ []) by by rewrite mark_sets.
  simpl. unfold set_block.
  change (index (set_cache_status miss r)) with (index r).
  by rewrite mark_sets, Hk.
Qed.

(** The statement above, at a concrete store. *)
Lemma read_refs_zero_blocks_witness :
  sets (Cache_init 1 0 false) !! target_key (index (ref_of 5 None (Some "101")))
  = Some []
  ∧ read_refs 0 1 "lru" [ref_of 5 None (Some "101")] None (Cache_init 1 0 false)
    = Raise IndexError.
Proof.
  split; [reflexivity|].
  apply (read_refs_zero_blocks 1 "lru" (ref_of 5 None (Some "101")) [] None
           (Cache_init 1 0 false)).
  reflexivity.
Defined.

(** Property X12. [read_refs] raises nothing when there is at least one
    block per set, every block of the store sits in the set its own index
    designates (as in a store filled by [read_refs]), the set of each
    reference exists in the store, and each set of the store exists in the
    attached next level. *)
Theorem read_refs_completes (n wpb : Z) (p : string) (refs : list Reference)
    (l2 : option Cache) (self : Cache) :
  (1 <= n)%Z →
  index_ok self →
  (∀ r, r ∈ refs → is_Some (sets self !! target_key (index r))) →
  (∀ c, l2 = Some c → dom (sets self) ⊆ dom (sets c)) →
  ∃ refs' self' l2', read_refs n wpb p refs l2 self = Ok (refs', self', l2', PyNone).
Proof.
  intros Hn. revert l2 self.
  induction refs as [|r refs IH]; intros l2 self Hok Hkeys Hsub; simpl.
  - eauto.
  - destruct (read_ref_completes n wpb p r self l2 Hn Hok) as (r1 & s1 & c1 & Hr);
      [apply Hkeys, list_elem_of_here | done |].
    rewrite Hr. simpl.
    destruct (read_ref_frame _ _ _ _ _ _ _ _ _ Hr) as (Hdom & _ & _ & Hl2).
    destruct (IH c1 s1) as (rs & s2 & c2 & ->); [| | |simpl; eauto].
    + destruct (read_ref_Ok _ _ _ _ _ _ _ _ _ Hr)
        as (blocks & Hk & [(_ & -> & _) | (_ & -> & _)]); [done|].
      by eapply index_ok_store.
    + intros r' Hr'. apply elem_of_dom. rewrite Hdom. apply elem_of_dom.
      apply Hkeys. by apply list_elem_of_further.
    + intros c' ->. rewrite Hdom. destruct l2 as [c|]; [|done].
      destruct Hl2 as (-> & _). by apply Hsub.
Qed.

(** The statement above, on a concrete run. *)
Lemma read_refs_completes_witness :
  ∃ refs' self' l2',
    read_refs 2 1 "lru" two_way_refs (Some (Cache_init 1 0 true))
              (Cache_init 1 0 false)
    = Ok (refs', self', l2', PyNone).
Proof.
  apply (read_refs_completes 2 1 "lru" two_way_refs
           (Some (Cache_init 1 0 true)) (Cache_init 1 0 false)).
  - lia.
  - intros k blocks b Hk Hb.
    rewrite (Cache_init_all_sets_empty 1 0 false k blocks Hk) in Hb.
    by apply elem_of_nil in Hb.
  - intros r Hr. exists [].
    assert (index r = None) as ->; [|reflexivity].
    unfold two_way_refs in Hr.
    repeat (apply elem_of_cons in Hr as [->|Hr]; [reflexivity|]).
    by apply elem_of_nil in Hr.
  - intros c [= <-]. reflexivity.
Defined.

(** Property X13. Reading the same address twice in a row: once a
    reference has been processed, a reference to the same index and tag
    processed next is a hit, and processing it changes nothing but the
    recency list. *)
Theorem read_ref_then_hit (n wpb : Z) (p : string) (ref : Reference)
    (self : Cache) (l2 : option Cache)
    (ref' : Reference) (self' : Cache) (l2' : option Cache) :
  read_ref n wpb p ref self l2 = Ok (ref', self', l2') →
  ∀ r2, index r2 = index ref → tag r2 = tag ref →
    read_ref n wpb p r2 self' l2'
    = Ok (set_cache_status hit r2, mark_ref_as_last_seen r2 self', l2').
Proof.
  intros H r2 Hi Ht.
  assert (∃ blocks', sets self' !! target_key (index ref) = Some blocks'
                     ∧ tag ref ∈ (block_tag <$> blocks')) as (blocks' & Hk' & Hin).
  { apply read_ref_Ok in H
      as (blocks & Hk & [(Hin & -> & _) | (_ & -> & _)]).
    - by exists blocks.
    - eexists. split; [unfold store_blocks; simpl; apply lookup_insert_eq|].
      apply list_elem_of_fmap. exists (get_cache_entry ref wpb).
      split; [done|]. apply elem_of_pushed_new. }
  unfold read_ref. rewrite Hi, Ht.
  rewrite (is_hit_target _ _ _ blocks') by by rewrite mark_sets.
  simpl. apply existsb_has_tag in Hin. by rewrite Hin.
Qed.

(** The statement above, on a concrete run. *)
Lemma read_ref_then_hit_witness :
  ∃ ref' self' l2',
    read_ref 1 1 "lru" (ref_of 4 (Some "00") (Some "1")) direct_demo_l1
             (Some direct_demo_l2)
    = Ok (ref', self', l2')
    ∧ cache_status ref' = Some miss
    ∧ read_ref 1 1 "lru" (ref_of 4 (Some "00") (Some "1")) self' l2'
      = Ok (set_cache_status hit (ref_of 4 (Some "00") (Some "1")),
            mark_ref_as_last_seen (ref_of 4 (Some "00") (Some "1")) self', l2').
Proof.
  eexists _, _, _. split; [vm_compute; reflexivity|]. split; [reflexivity|].
  eapply (read_ref_then_hit 1 1 "lru" (ref_of 4 (Some "00") (Some "1"))
            direct_demo_l1 (Some direct_demo_l2) _ _ _ eq_refl);
    reflexivity.
Defined.

(** Property X14. The next level never influences L1: whenever
    [read_refs] completes with a next level attached, it completes
    without next level too, with the same L1 store, the same references
    and statuses, and the same returned value. *)
Theorem read_refs_ignores_l2 (n wpb : Z) (p : string) (refs : list Reference)
    (l2 : option Cache) (self : Cache)
    (refs' : list Reference) (self' : Cache) (l2' : option Cache) (v : PyValue) :
  read_refs n wpb p refs l2 self = Ok (refs', self', l2', v) →
  read_refs n wpb p refs None self = Ok (refs', self', None, v).
Proof.
  revert l2 self refs' self' l2' v.
  induction refs as [|r refs IH]; intros l2 self refs' self' l2' v H;
    simpl in *.
  - by simplify_eq.
  - apply bind_Ok in H as ([[r1 s1] c1] & Hr & H).
    apply bind_Ok in H as ([[[rs s2] c2] v2] & Hrec & H). simplify_eq.
    rewrite (read_ref_no_l2 _ _ _ _ _ _ _ _ _ Hr). simpl.
    by rewrite (IH _ _ _ _ _ _ Hrec).
Qed.

(** The statement above, on a concrete run. *)
Lemma read_refs_ignores_l2_witness :
  ∃ refs' self' l2',
    read_refs 2 1 "lru" two_way_refs (Some (Cache_init 1 0 true))
              (Cache_init 1 0 false)
    = Ok (refs', self', l2', PyNone)
    ∧ read_refs 2 1 "lru" two_way_refs None (Cache_init 1 0 false)
      = Ok (refs', self', None, PyNone).
Proof.
  eexists _, _, _. split; [vm_compute; reflexivity|].
  eapply (read_refs_ignores_l2 2 1 "lru" two_way_refs
            (Some (Cache_init 1 0 true)) (Cache_init 1 0 false)).
  vm_compute; reflexivity.
Defined.

(** Property X15. What [read_refs] leaves alone: the keys and the flag of
    the store, its sets under the keys that no reference addresses, and,
    in the next level, the keys, the flag and the recency list (the next
    level is never marked). *)
Theorem read_refs_frame (n wpb : Z) (p : string) (refs : list Reference)
    (l2 : option Cache) (self : Cache)
    (refs' : list Reference) (self' : Cache) (l2' : option Cache) (v : PyValue) :
  read_refs n wpb p refs l2 self = Ok (refs', self', l2', v) →
  dom (sets self') = dom (sets self)
  ∧ is_l2 self' = is_l2 self
  ∧ (∀ k, (∀ r, r ∈ refs → target_key (index r) ≠ k) →
          sets self' !! k = sets self !! k)
  ∧ match l2, l2' with
    | Some c, Some c' =>
        dom (sets c') = dom (sets c)
        ∧ recently_used_addrs c' = recently_used_addrs c
        ∧ is_l2 c' = is_l2 c
    | None, None => True
    | _, _ => False
    end.
Proof.
  revert l2 self refs' self' l2' v.
  induction refs as [|r refs IH]; intros l2 self refs' self' l2' v H;
    simpl in H.
  - simplify_eq. do 3 (split; [done|]). by destruct l2'.
  - apply bind_Ok in H as ([[r1 s1] c1] & Hr & H).
    apply bind_Ok in H as ([[[rs s2] c2] v2] & Hrec & H). simplify_eq.
    destruct (read_ref_frame _ _ _ _ _ _ _ _ _ Hr) as (Hd1 & Hf1 & Hs1 & Hl1).
    destruct (IH _ _ _ _ _ _ Hrec) as (Hd2 & Hf2 & Hs2 & Hl2).
    split; [congruence|]. split; [congruence|]. split.
    + intros k Hk. rewrite Hs2, Hs1; [done| |].
      * intros Heq. apply (Hk r); [apply list_elem_of_here | done].
      * intros r' Hr'. apply Hk. by apply list_elem_of_further.
    + destruct l2 as [c|], c1 as [ca|], l2' as [c'|]; try done.
      destruct Hl1 as (?&?&?), Hl2 as (?&?&?). repeat split; congruence.
Qed.

(** The statement above, on a concrete run. *)
Lemma read_refs_frame_witness :
  ∃ refs' self' c',
    read_refs 1 1 "lru" [ref_of 4 (Some "00") (Some "1")]
              (Some direct_demo_l2) direct_demo_l1
    = Ok (refs', self', Some c', PyNone)
    ∧ dom (sets self') = dom (sets direct_demo_l1)
    ∧ is_l2 self' = false
    ∧ sets self' !! "01" = sets direct_demo_l1 !! "01"
    ∧ recently_used_addrs c' = []
    ∧ dom (sets c') = dom (sets direct_demo_l2).
Proof.
  eexists _, _, _. split; [vm_compute; reflexivity|].
  destruct (read_refs_frame 1 1 "lru" [ref_of 4 (Some "00") (Some "1")]
              (Some direct_demo_l2) direct_demo_l1 _ _ (Some _) _ eq_refl)
    as (Hd & Hf & Hs & Hd2 & Hr2 & _).
  split; [exact Hd|]. split; [exact Hf|]. split; [|split; [exact Hr2 | exact Hd2]].
  apply Hs. intros r Hr. apply list_elem_of_singleton in Hr. subst r. discriminate.
Defined.

(** Property X16. Splitting a run: reading the references [refsA ++
    refsB] in one call is reading [refsA] and then [refsB] on the stores
    that the first call left, exceptions included. *)
Theorem read_refs_app (n wpb : Z) (p : string) (refsA refsB : list Reference)
    (l2 : option Cache) (self : Cache) :
  read_refs n wpb p (refsA ++ refsB) l2 self
  = ('(ra, s1, c1, _) ← read_refs n wpb p refsA l2 self;
     '(rb, s2, c2, v) ← read_refs n wpb p refsB c1 s1;
     Ok (ra ++ rb, s2, c2, v)).
Proof.
  revert l2 self. induction refsA as [|r refsA IH]; intros l2 self; simpl.
  - by destruct (read_refs n wpb p refsB l2 self) as [[[[? ?] ?] ?]|].
  - destruct (read_ref n wpb p r self l2) as [[[r1 s1] c1]|]; simpl; [|done].
    rewrite IH.
    destruct (read_refs n wpb p refsA c1 s1) as [[[[ra s2] c2] v2]|]; simpl;
      [|done].
    by destruct (read_refs n wpb p refsB c2 s2) as [[[[? ?] ?] ?]|].
Qed.

(** ** The next level across a run *)

Section NextLevel.

Lemma blocks_of_lookup c k blocks :
  sets c !! k = Some blocks → blocks_of c k = blocks.
Proof. unfold blocks_of. by intros ->. Qed.

Lemma blocks_of_store_eq k blocks c :
  blocks_of (store_blocks k blocks c) k = blocks.
Proof. unfold blocks_of, store_blocks. simpl. by rewrite lookup_insert_eq. Qed.

Lemma blocks_of_store_ne k k' blocks c :
  k ≠ k' → blocks_of (store_blocks k blocks c) k' = blocks_of c k'.
Proof.
  intros Hne. unfold blocks_of, store_blocks. simpl. by rewrite lookup_insert_ne.
Qed.

(** With one block per set the loop body keeps the next level a mirror of
    the store. *)
Lemma read_ref_mirrors wpb p ref self c ref' self' l2' :
  truthy (Some c) = true →
  index_ok self →
  mirrors self c →
  read_ref 1 wpb p ref self (Some c) = Ok (ref', self', l2') →
  ∃ c', l2' = Some c' ∧ truthy (Some c') = true
        ∧ index_ok self' ∧ mirrors self' c'.
Proof.
  intros Ht Hok Hm H.
  apply read_ref_Ok in H
    as (blocks & Hk & [(_ & -> & ->) | (HR & -> & l2a & Hwb & Hfill)]).
  { by exists c. }
  set (k := target_key (index ref)) in *.
  set (b := get_cache_entry ref wpb) in *.
  pose proof (Hm k) as Hmk. rewrite (blocks_of_lookup _ _ _ Hk) in Hmk.
  rewrite Ht, andb_true_r in Hwb.
  assert (index_ok (store_blocks k (pushed 1 blocks b)
                      (mark_ref_as_last_seen ref self))) as Hok'.
  { by eapply index_ok_store. }
  assert (∀ c', l2' = Some c' →
            truthy (Some c') = true
            ∧ blocks_of c' k = pushed 1 blocks b
            ∧ ∀ k', k ≠ k' → blocks_of c' k' = blocks_of c k') as Hc'.
  { destruct (bool_decide (Z.of_nat (length blocks) = 1%Z)) eqn:Hfull;
      destruct (is_l2 self) eqn:Hl2; simpl in Hwb.
    1,3,4: subst l2a; rewrite Ht in Hfill;
      destruct Hfill as (ca & s2a & [= <-] & Hk2 & ->);
      rewrite (blocks_of_lookup _ _ _ Hk2) in Hmk; subst s2a;
      rewrite decide_False by done;
      intros c' [= <-]; split; [apply truthy_store|];
      split; [apply blocks_of_store_eq | intros k' Hne; by apply blocks_of_store_ne].
    destruct Hwb as (e & c0 & s2 & He & [= <-] & Hke & ->).
    assert (target_key (block_index e) = k) as Hek.
    { eapply Hok; [exact Hk|]. by eapply head_Some_elem_of. }
    rewrite Hek in *. rewrite truthy_store in Hfill.
    destruct Hfill as (ca & s2a & [= <-] & Hk2 & ->).
    unfold store_blocks in Hk2. simpl in Hk2.
    rewrite lookup_insert_eq in Hk2. injection Hk2 as <-.
    rewrite (blocks_of_lookup _ _ _ Hke) in Hmk. subst s2.
    apply bool_decide_eq_true in Hfull.
    destruct blocks as [|e' [|e'' blocks]]; simpl in Hfull; try lia.
    simpl in He. injection He as ->.
    assert (pushed 1 [e] e = [e]) as Hp by done. rewrite Hp.
    rewrite decide_False by done.
    intros c' [= <-]. split; [apply truthy_store|].
    split; [by rewrite blocks_of_store_eq|].
    intros k' Hne. by rewrite !blocks_of_store_ne. }
  assert (∃ c', l2' = Some c') as [c' ->].
  { destruct (truthy l2a).
    - destruct Hfill as (ca & s2a & _ & _ & ->). eauto.
    - subst l2'. destruct (_ && _) in Hwb.
      + destruct Hwb as (e & c0 & s2 & _ & _ & _ & ->). eauto.
      + subst l2a. eauto. }
  destruct (Hc' c' eq_refl) as (Ht' & Heq & Hne).
  exists c'. do 3 (split; [done|]).
  intros k'. destruct (decide (k = k')) as [<-|Hkk].
  - by rewrite Heq, blocks_of_store_eq.
  - rewrite (Hne k' Hkk), blocks_of_store_ne by done. apply Hm.
Qed.

Lemma all_sets_empty_blocks_of c k : all_sets_empty c → blocks_of c k = [].
Proof.
  intros He. unfold blocks_of.
  destruct (sets c !! k) as [blocks|] eqn:Hk; [|done]. by rewrite (He _ _ Hk).
Qed.

(** A reference is a hit only if its set and tag were addressed before:
    the tags of the sets all come from the pairs [seen]. *)
Lemma read_refs_miss_unseen n wpb p refs l2 self refs' self' l2' v
    (seen : list (string * option string)) :
  (∀ k t, t ∈ set_tags self k → (k, t) ∈ seen) →
  read_refs n wpb p refs l2 self = Ok (refs', self', l2', v) →
  ∀ i r r',
    refs !! i = Some r → refs' !! i = Some r' →
    addressed r ∉ seen →
    (∀ j rj, (j < i)%nat → refs !! j = Some rj → addressed rj ≠ addressed r) →
    cache_status r' = Some miss.
Proof.
  revert l2 self refs' self' l2' v seen.
  induction refs as [|r0 refs IH];
    intros l2 self refs' self' l2' v seen Hseen H i r r' Hi Hi' Hnew Hfirst;
    simpl in H; [done|].
  apply bind_Ok in H as ([[r1 s1] c1] & Hr & H).
  apply bind_Ok in H as ([[[rs s2] c2] v2] & Hrec & H). simplify_eq.
  destruct (read_ref_Ok _ _ _ _ _ _ _ _ _ Hr) as (blocks & Hk & Hcases).
  assert (∀ k t, t ∈ set_tags s1 k → (k, t) ∈ addressed r0 :: seen) as Hseen1.
  { intros k t Hin.
    destruct Hcases as [(_ & -> & _) | (_ & -> & _)].
    - apply list_elem_of_further. by apply Hseen.
    - destruct (decide (target_key (index r0) = k)) as [<-|Hne].
      + rewrite set_tags_store_eq, fmap_pushed in Hin.
        apply elem_of_pushed in Hin as [Hin | ->].
        * apply list_elem_of_further, Hseen.
          by rewrite (set_tags_lookup _ _ _ Hk).
        * apply list_elem_of_here.
      + rewrite set_tags_store_ne in Hin by done.
        apply list_elem_of_further. by apply Hseen. }
  destruct i as [|i]; simpl in Hi, Hi'.
  - simplify_eq. rewrite (read_ref_ref' _ _ _ _ _ _ _ _ _ _ Hr Hk).
    rewrite decide_False; [done|]. intros Hin. apply Hnew, Hseen.
    by rewrite (set_tags_lookup _ _ _ Hk).
  - eapply (IH _ _ _ _ _ _ (addressed r0 :: seen) Hseen1 Hrec i r r' Hi Hi').
    + apply not_elem_of_cons. split; [|done].
      intros Heq. apply (Hfirst 0%nat r0); [lia|done|done].
    + intros j rj Hj Hrj. apply (Hfirst (S j) rj); [lia|done].
Qed.

(** With a next level that the code takes for absent, the loop body is
    the loop body without next level. *)
Lemma read_ref_falsy_l2 n wpb p ref self l2 :
  truthy l2 = false →
  read_ref n wpb p ref self l2
  = ('(r, s, _) ← read_ref n wpb p ref self None; Ok (r, s, l2)).
Proof.
  intros Ht. unfold read_ref.
  destruct (is_hit _ _ _) as [[|]|]; simpl; [done| |done].
  rewrite set_block_no_l2. unfold set_block, set_block_last.
  destruct (sets _ !! _) as [blocks|]; simpl; [|done].
  case_bool_decide; simpl.
  - destruct blocks as [|e blocks']; simpl; [done|].
    destruct l2 as [c|]; simpl; [|done].
    rewrite Ht. simpl. by rewrite Ht.
  - destruct l2 as [c|]; simpl; [|done]. by rewrite Ht.
Qed.

End NextLevel.

(** Property X17. The sets of the two levels fill and stay in step: after
    a completed [read_refs] on stores constructed empty, every set of the
    attached L2 holds as many blocks as the set of L1 with the same key. *)
Theorem read_refs_l2_sets_same_size (n wpb : Z) (p : string)
    (refs : list Reference) (c self : Cache)
    (refs' : list Reference) (self' : Cache) (l2' : option Cache) (v : PyValue) :
  all_sets_empty self →
  all_sets_empty c →
  truthy (Some c) = true →
  read_refs n wpb p refs (Some c) self = Ok (refs', self', l2', v) →
  ∃ c', l2' = Some c'
        ∧ ∀ k, length (blocks_of c' k) = length (blocks_of self' k).
Proof.
  intros He Hec Ht H.
  destruct (read_refs_hier_inv _ _ _ _ _ _ _ _ _ _ Ht
              (all_sets_empty_hier_inv n _ _ He Hec) H) as (c' & -> & _ & Hinv).
  exists c'. split; [done|]. intros k.
  destruct (Hinv k) as (_ & _ & [Heq | (_ & _ & Hlen & _)]).
  - unfold set_tags in Heq. apply (f_equal length) in Heq.
    by rewrite !length_fmap in Heq.
  - unfold set_tags in Hlen. by rewrite !length_fmap in Hlen.
Qed.

(** The statement above, on a concrete run. *)
Lemma read_refs_l2_sets_same_size_witness :
  ∃ refs' self' c',
    read_refs 2 1 "lru" two_way_refs (Some (Cache_init 1 0 true))
              (Cache_init 1 0 false)
    = Ok (refs', self', Some c', PyNone)
    ∧ ∀ k, length (blocks_of c' k) = length (blocks_of self' k).
Proof.
  eexists _, _, _. split; [vm_compute; reflexivity|].
  destruct (read_refs_l2_sets_same_size 2 1 "lru" two_way_refs
              (Cache_init 1 0 true) (Cache_init 1 0 false) _ _ _ _
              (Cache_init_all_sets_empty 1 0 false)
              (Cache_init_all_sets_empty 1 0 true) eq_refl eq_refl)
    as (c' & Hc' & Hlen).
  injection Hc' as <-. exact Hlen.
Defined.

(** Property X18. With one block per set the next level adds nothing:
    after a completed [read_refs] on stores constructed empty, every set
    of the attached L2 holds exactly the blocks of the set of L1 with the
    same key. *)
Theorem read_refs_one_block_l2_mirrors_l1 (wpb : Z) (p : string)
    (refs : list Reference) (c self : Cache)
    (refs' : list Reference) (self' : Cache) (l2' : option Cache) (v : PyValue) :
  all_sets_empty self →
  all_sets_empty c →
  truthy (Some c) = true →
  read_refs 1 wpb p refs (Some c) self = Ok (refs', self', l2', v) →
  ∃ c', l2' = Some c' ∧ mirrors self' c'.
Proof.
  intros He Hec Ht H.
  assert (index_ok self) as Hok.
  { intros k blocks b Hk Hb. rewrite (He _ _ Hk) in Hb. by apply elem_of_nil in Hb. }
  assert (mirrors self c) as Hm.
  { intros k. by rewrite !all_sets_empty_blocks_of. }
  clear He Hec. revert c self refs' self' l2' v Ht Hok Hm H.
  induction refs as [|r refs IH]; intros c self refs' self' l2' v Ht Hok Hm H;
    simpl in H.
  - simplify_eq. eauto.
  - apply bind_Ok in H as ([[r1 s1] c1] & Hr & H).
    apply bind_Ok in H as ([[[rs s2] c2] v2] & Hrec & H). simplify_eq.
    destruct (read_ref_mirrors _ _ _ _ _ _ _ _ Ht Hok Hm Hr)
      as (c' & -> & Ht' & Hok' & Hm').
    by eapply IH.
Qed.

(** The statement above, on a concrete run. *)
Lemma read_refs_one_block_l2_mirrors_l1_witness :
  ∃ refs' self' c',
    read_refs 1 1 "lru"
              [ref_of 0 (Some "00") (Some "0"); ref_of 4 (Some "00") (Some "1");
               ref_of 1 (Some "01") (Some "0")]
              (Some (Cache_init 4 2 true)) (Cache_init 4 2 false)
    = Ok (refs', self', Some c', PyNone)
    ∧ mirrors self' c'.
Proof.
  eexists _, _, _. split; [vm_compute; reflexivity|].
  destruct (read_refs_one_block_l2_mirrors_l1 1 "lru"
              [ref_of 0 (Some "00") (Some "0"); ref_of 4 (Some "00") (Some "1");
               ref_of 1 (Some "01") (Some "0")]
              (Cache_init 4 2 true) (Cache_init 4 2 false) _ _ _ _
              (Cache_init_all_sets_empty 4 2 false)
              (Cache_init_all_sets_empty 4 2 true) eq_refl eq_refl)
    as (c' & Hc' & Hm).
  injection Hc' as <-. exact Hm.
Defined.

(** Property X19. The first access to a block misses: in a completed
    [read_refs] on a store constructed empty, a reference that no earlier
    reference of the list precedes with the same set and tag gets the
    status miss. *)
Theorem read_refs_first_access_misses (n wpb : Z) (p : string)
    (refs : list Reference) (l2 : option Cache) (self : Cache)
    (refs' : list Reference) (self' : Cache) (l2' : option Cache) (v : PyValue)
    (i : nat) (r r' : Reference) :
  all_sets_empty self →
  read_refs n wpb p refs l2 self = Ok (refs', self', l2', v) →
  refs !! i = Some r → refs' !! i = Some r' →
  (∀ j rj, (j < i)%nat → refs !! j = Some rj → addressed rj ≠ addressed r) →
  cache_status r' = Some miss.
Proof.
  intros He H Hi Hi' Hfirst.
  assert (∀ k t, t ∈ set_tags self k → (k, t) ∈ []) as Hseen.
  { intros k t Hin. rewrite all_sets_empty_set_tags in Hin by done.
    by apply elem_of_nil in Hin. }
  eapply (read_refs_miss_unseen _ _ _ _ _ _ _ _ _ _ [] Hseen H i r r' Hi Hi');
    [apply not_elem_of_nil | done].
Qed.

(** The statement above, on a concrete run. *)
Lemma read_refs_first_access_misses_witness :
  ∃ refs' self' l2' r',
    read_refs 2 1 "lru" two_way_refs (Some (Cache_init 1 0 true))
              (Cache_init 1 0 false)
    = Ok (refs', self', l2', PyNone)
    ∧ refs' !! 3%nat = Some r'
    ∧ cache_status r' = Some miss.
Proof.
  eexists _, _, _, _. split; [vm_compute; reflexivity|].
  split; [reflexivity|].
  eapply (read_refs_first_access_misses 2 1 "lru" two_way_refs
            (Some (Cache_init 1 0 true)) (Cache_init 1 0 false)
            _ _ _ _ 3%nat (ref_of 7 None (Some "111")) _
            (Cache_init_all_sets_empty 1 0 false) eq_refl eq_refl eq_refl).
  intros j rj Hj Hrj.
  destruct j as [|[|[|j]]]; simpl in Hrj; [| | |lia];
    injection Hrj as <-; discriminate.
Defined.

(** Property X20. A next level without any set is taken for absent: a
    [Cache] is a dict, false in [if l2_cache] when it has no key, and
    [read_refs] then behaves as without next level, exceptions included,
    and hands the next level back untouched. *)
Theorem read_refs_falsy_l2 (n wpb : Z) (p : string) (refs : list Reference)
    (l2 : option Cache) (self : Cache) :
  truthy l2 = false →
  read_refs n wpb p refs l2 self
  = ('(rs, s, _, v) ← read_refs n wpb p refs None self; Ok (rs, s, l2, v)).
Proof.
  intros Ht. revert self. induction refs as [|r refs IH]; intros self; simpl.
  - done.
  - rewrite (read_ref_falsy_l2 _ _ _ _ _ _ Ht).
    destruct (read_ref n wpb p r self None) as [[[r1 s1] c1]|] eqn:Hr; simpl;
      [|done].
    assert (c1 = None) as ->.
    { by destruct (read_ref_frame _ _ _ _ _ _ _ _ _ Hr) as (_ & _ & _ & Hl);
        destruct c1. }
    rewrite IH.
    by destruct (read_refs n wpb p refs None s1) as [[[[? ?] ?] ?]|].
Qed.

(** The statement above, on a concrete run. *)
Lemma read_refs_falsy_l2_witness :
  truthy (Some (Cache_init 0 0 true)) = false
  ∧ read_refs 2 1 "lru" two_way_refs (Some (Cache_init 0 0 true))
              (Cache_init 1 0 false)
    = ('(rs, s, _, v) ← read_refs 2 1 "lru" two_way_refs None
                          (Cache_init 1 0 false);
       Ok (rs, s, Some (Cache_init 0 0 true), v)).
Proof.
  split; [reflexivity|].
  apply (read_refs_falsy_l2 2 1 "lru" two_way_refs
           (Some (Cache_init 0 0 true)) (Cache_init 1 0 false)).
  reflexivity.
Defined.

(** ** The simulator *)

Section SimulatorMore.

Lemma foldl_max_zero (w : N) (ws : list N) :
  w = 0%N → (∀ x, x ∈ ws → x = 0%N) → foldl N.max w ws = 0%N.
Proof.
  revert w. induction ws as [|x ws IH]; intros w Hw Hall; simpl; [done|].
  apply IH.
  - rewrite Hw, (Hall x) by apply list_elem_of_here. done.
  - intros y Hy. apply Hall. by apply list_elem_of_further.
Qed.

Lemma read_ref_within n wpb p ref self l2 ref' self' l2' :
  within_capacity n self →
  from_option (within_capacity n) True l2 →
  read_ref n wpb p ref self l2 = Ok (ref', self', l2') →
  within_capacity n self' ∧ from_option (within_capacity n) True l2'.
Proof.
  intros Hc Hc2 H. unfold read_ref in H.
  apply bind_Ok in H as (h & _ & H). destruct h; [by simplify_eq|].
  apply bind_Ok in H as ([[s1 c1] wb] & Hs & H).
  apply set_block_within in Hs as [Hc1 Hc21]; [|done|done].
  destruct c1 as [c|]; [|by simplify_eq].
  destruct (truthy (Some c)); [|by simplify_eq].
  apply bind_Ok in H as (h2 & _ & H). destruct h2; [by simplify_eq|].
  apply bind_Ok in H as (c' & Hc' & H). simplify_eq. split; [done|].
  simpl in *. by eapply set_block_last_within.
Qed.

Lemma read_refs_within n wpb p refs l2 self refs' self' l2' v :
  within_capacity n self →
  from_option (within_capacity n) True l2 →
  read_refs n wpb p refs l2 self = Ok (refs', self', l2', v) →
  within_capacity n self' ∧ from_option (within_capacity n) True l2'.
Proof.
  revert l2 self refs' self' l2' v.
  induction refs as [|r refs IH]; intros l2 self refs' self' l2' v Hc Hc2 H;
    simpl in H.
  - by simplify_eq.
  - apply bind_Ok in H as ([[r1 s1] c1] & Hr & H).
    apply bind_Ok in H as ([[[rs s2] c2] v2] & Hrec & H). simplify_eq.
    destruct (read_ref_within _ _ _ _ _ _ _ _ _ Hc Hc2 Hr) as [Hc1 Hc21].
    by eapply IH.
Qed.

(** The tags stay distinct in the next level too, from empty stores. *)
Lemma read_refs_l2_tags_distinct n wpb p refs c self refs' self' l2' v :
  all_sets_empty self →
  all_sets_empty c →
  read_refs n wpb p refs (Some c) self = Ok (refs', self', l2', v) →
  ∃ c', l2' = Some c' ∧ tags_distinct c'.
Proof.
  intros He Hec H. destruct (truthy (Some c)) eqn:Ht.
  - destruct (read_refs_hier_inv _ _ _ _ _ _ _ _ _ _ Ht
                (all_sets_empty_hier_inv n _ _ He Hec) H)
      as (c' & -> & _ & Hinv).
    exists c'. split; [done|]. apply tags_distinct_set_tags. intros k.
    by destruct (Hinv k) as (_ & Hnd & _).
  - rewrite (read_refs_l2_untouched _ _ _ _ _ _ _ _ _ _ Ht H).
    exists c. split; [done|]. intros k blocks Hk. rewrite (Hec _ _ Hk). constructor.
Qed.

End SimulatorMore.

(** Property X21. [run_simulation] divides by the number of words per
    block and by the number of blocks per set: when either is zero the
    run stops with [ZeroDivisionError] before any cache is built. *)
Theorem run_simulation_zero_division (n wpb size : Z) (p : string) (bits : Z)
    (word_addrs : list N) :
  wpb = 0%Z ∨ n = 0%Z →
  run_simulation n wpb size p bits word_addrs = Raise ZeroDivisionError.
Proof.
  intros H. unfold run_simulation, floordiv.
  destruct (decide (wpb = 0%Z)) as [Hw|Hw].
  - by rewrite (bool_decide_eq_true_2 (wpb = 0%Z)).
  - rewrite (bool_decide_eq_false_2 (wpb = 0%Z)) by done. simpl.
    destruct H as [H|H]; [done|]. by rewrite bool_decide_eq_true_2.
Qed.

(** The statement above, on a concrete run. *)
Lemma run_simulation_zero_division_witness :
  (1%Z = 0%Z ∨ 0%Z = 0%Z)
  ∧ run_simulation 0 1 4 "lru" 1 [0; 4]%N = Raise ZeroDivisionError.
Proof.
  split; [by right|].
  apply (run_simulation_zero_division 0 1 4 "lru" 1 [0; 4]%N). by right.
Defined.

(** Property X22. The run needs an address greater than zero: with an
    empty list of addresses [max] fails, and when every address is 0 the
    logarithm of the largest address fails; either way [run_simulation]
    raises [ValueError]. *)
Theorem run_simulation_no_positive_address (n wpb size : Z) (p : string)
    (bits : Z) (word_addrs : list N) :
  wpb ≠ 0%Z → n ≠ 0%Z →
  (∀ w, w ∈ word_addrs → w = 0%N) →
  run_simulation n wpb size p bits word_addrs = Raise ValueError.
Proof.
  intros Hw Hn Hall. unfold run_simulation, floordiv.
  rewrite !bool_decide_eq_false_2 by done. simpl.
  destruct word_addrs as [|w ws]; simpl; [done|].
  rewrite foldl_max_zero.
  - done.
  - apply Hall, list_elem_of_here.
  - intros x Hx. apply Hall. by apply list_elem_of_further.
Qed.

(** The statement above, on a concrete run. *)
Lemma run_simulation_no_positive_address_witness :
  run_simulation 1 1 4 "lru" 1 [0; 0]%N = Raise ValueError.
Proof.
  apply (run_simulation_no_positive_address 1 1 4 "lru" 1 [0; 0]%N); [lia|lia|].
  intros w Hw.
  repeat (apply elem_of_cons in Hw as [->|Hw]; [reflexivity|]).
  by apply elem_of_nil in Hw.
Defined.

(** Property X23. A cache smaller than one set cannot be simulated: with
    positive sizes and a cache size below the words of one set, the number
    of sets is zero and [run_simulation] raises [ValueError], whatever the
    addresses. *)
Theorem run_simulation_cache_too_small (n wpb size : Z) (p : string)
    (bits : Z) (word_addrs : list N) :
  (0 < wpb)%Z → (0 < n)%Z → (0 <= size < wpb * n)%Z →
  run_simulation n wpb size p bits word_addrs = Raise ValueError.
Proof.
  intros Hw Hn Hsize. unfold run_simulation, floordiv.
  rewrite !bool_decide_eq_false_2 by lia. simpl.
  destruct (max_word_addr word_addrs) as [m|e] eqn:Hm; simpl.
  - assert ((size / wpb) / n = 0)%Z as ->.
    { assert (size / wpb < n)%Z by (apply Z.div_lt_upper_bound; lia).
      assert (0 <= size / wpb)%Z by (apply Z.div_pos; lia).
      apply Z.div_small. lia. }
    destruct (int_log2 m) as [lg|e] eqn:Hlg; simpl.
    + assert (int_log2 wpb = Ok (Z.log2 wpb)) as ->; [|done].
      unfold int_log2. by rewrite bool_decide_eq_false_2 by lia.
    + unfold int_log2 in Hlg. case_bool_decide; by simplify_eq.
  - destruct word_addrs; simpl in Hm; by simplify_eq.
Qed.

(** The statement above, on a concrete run. *)
Lemma run_simulation_cache_too_small_witness :
  run_simulation 2 2 3 "lru" 1 [0; 4]%N = Raise ValueError.
Proof.
  apply (run_simulation_cache_too_small 2 2 3 "lru" 1 [0; 4]%N); lia.
Defined.

(** Property X24. The second pass rebuilds the first: in a completed
    [run_simulation] the L1 store of the run with L1 only is the L1 store
    of the run with L2, sets and recency list alike. *)
Theorem run_simulation_l1_only_same_cache (n wpb size : Z) (p : string)
    (bits : Z) (word_addrs : list N) (o : SimulationOutput) :
  run_simulation n wpb size p bits word_addrs = Ok o →
  l1_cache_only o = l1_cache o.
Proof.
  unfold run_simulation. intros H.
  do 7 (apply bind_Ok in H as (? & _ & H)).
  apply bind_Ok in H as ([[[r1 s1] c1] v1] & H1 & H).
  apply bind_Ok in H as ([[[r2 s2] c2] v2] & H2 & H).
  simplify_eq. simpl.
  assert (Forall2 same_addr x5 r1) as Hsame.
  { eapply Forall2_impl; [exact (read_refs_status _ _ _ _ _ _ _ _ _ _ H1)|].
    intros a b [s ->]. done. }
  by destruct (read_refs_l1_only _ _ _ _ _ _ _ _ _ _ _ _ _ _ _ Hsame H1 H2)
    as [-> _].
Qed.

(** The statement above, on a concrete run. *)
Lemma run_simulation_l1_only_same_cache_witness :
  ∃ o, run_simulation 2 1 2 "lru" 1 [5; 6; 5; 7]%N = Ok o
       ∧ l1_cache_only o = l1_cache o.
Proof.
  eexists. split; [vm_compute; reflexivity|].
  eapply (run_simulation_l1_only_same_cache 2 1 2 "lru" 1 [5; 6; 5; 7]%N).
  vm_compute; reflexivity.
Defined.

(** Property X25. What a completed [run_simulation] with a non-negative
    number of blocks per set displays: in each of the three caches (L1 and
    L2 of the first run, L1 of the second) every set holds at most
    [num_blocks_per_set] blocks and the tags within a set are distinct. *)
Theorem run_simulation_caches_well_formed (n wpb size : Z) (p : string)
    (bits : Z) (word_addrs : list N) (o : SimulationOutput) :
  (0 <= n)%Z →
  run_simulation n wpb size p bits word_addrs = Ok o →
  (within_capacity n (l1_cache o) ∧ tags_distinct (l1_cache o))
  ∧ (within_capacity n (l2_cache_out o) ∧ tags_distinct (l2_cache_out o))
  ∧ (within_capacity n (l1_cache_only o) ∧ tags_distinct (l1_cache_only o)).
Proof.
  intros Hn. unfold run_simulation. intros H.
  do 7 (apply bind_Ok in H as (? & _ & H)).
  apply bind_Ok in H as ([[[r1 s1] c1] v1] & H1 & H).
  apply bind_Ok in H as ([[[r2 s2] c2] v2] & H2 & H).
  simplify_eq. simpl.
  set (l1 := Cache_init x0 x4 false) in *.
  set (l2 := Cache_init x0 x4 true) in *.
  assert (all_sets_empty l1) as He1 by apply Cache_init_all_sets_empty.
  assert (all_sets_empty l2) as He2 by apply Cache_init_all_sets_empty.
  assert (tags_distinct l1) as Hd1.
  { intros k blocks Hk. rewrite (He1 _ _ Hk). constructor. }
  destruct (read_refs_within n _ _ _ _ _ _ _ _ _
              (all_sets_empty_within n _ Hn He1)
              (all_sets_empty_within n _ Hn He2 : from_option _ True (Some l2)) H1)
    as [Hc1 Hc2].
  destruct (read_refs_within n _ _ _ _ _ _ _ _ _
              (all_sets_empty_within n _ Hn He1)
              (I : from_option (within_capacity n) True None) H2) as [Hc3 _].
  destruct (read_refs_l2_tags_distinct _ _ _ _ _ _ _ _ _ _ He1 He2 H1)
    as (c' & -> & Hd2).
  split; [|split].
  - split; [done|]. exact (read_refs_tags_distinct_l1 _ _ _ _ _ _ _ _ _ _ Hd1 H1).
  - done.
  - split; [done|]. exact (read_refs_tags_distinct_l1 _ _ _ _ _ _ _ _ _ _ Hd1 H2).
Qed.

(** The statement above, on a concrete run. *)
Lemma run_simulation_caches_well_formed_witness :
  ∃ o, run_simulation 2 1 2 "lru" 1 [5; 6; 5; 7]%N = Ok o
       ∧ (within_capacity 2 (l1_cache o) ∧ tags_distinct (l1_cache o))
       ∧ (within_capacity 2 (l2_cache_out o) ∧ tags_distinct (l2_cache_out o))
       ∧ (within_capacity 2 (l1_cache_only o) ∧ tags_distinct (l1_cache_only o)).
Proof.
  eexists. split; [vm_compute; reflexivity|].
  eapply (run_simulation_caches_well_formed 2 1 2 "lru" 1 [5; 6; 5; 7]%N);
    [lia|].
  vm_compute; reflexivity.
Defined.

(** Property X26. [get_addr_refs] makes one reference per word address,
    in the order of the addresses, each without status yet. *)
Theorem get_addr_refs_in_order (word_addrs : list N) (a o i t : Z)
    (refs : list Reference) :
  get_addr_refs word_addrs a o i t = Ok refs →
  word_addr <$> refs = word_addrs
  ∧ Forall (fun r => cache_status r = None) refs.
Proof.
  revert refs. induction word_addrs as [|w ws IH]; intros refs H; simpl in H.
  - simplify_eq. split; [done|constructor].
  - apply bind_Ok in H as (r & Hr & H).
    apply bind_Ok in H as (rs & Hrs & H). simplify_eq.
    destruct (IH _ Hrs) as [Hw Hs].
    assert (word_addr r = w ∧ cache_status r = None) as [Hrw Hrs'].
    { unfold Reference_init in Hr. repeat case_bool_decide; by simplify_eq. }
    split; [by rewrite fmap_cons, Hw, Hrw | by constructor].
Qed.

(** The statement above, on a concrete run. *)
Lemma get_addr_refs_in_order_witness :
  ∃ refs, get_addr_refs [5; 6; 5; 7]%N 3 0 0 3 = Ok refs
          ∧ word_addr <$> refs = [5; 6; 5; 7]%N
          ∧ Forall (fun r => cache_status r = None) refs.
Proof.
  eexists. split; [vm_compute; reflexivity|].
  eapply (get_addr_refs_in_order [5; 6; 5; 7]%N 3 0 0 3).
  vm_compute; reflexivity.
Defined.

(** ** Displaying a cache *)

Section Display.

#[local] Instance key_le_total : Total key_le.
Proof. intros a b. unfold key_le. apply String.leb_total. Qed.

Lemma sorted_sets_Sorted cache : Sorted key_le (sorted_sets cache).
Proof. apply Sorted_merge_sort, _. Qed.

Lemma sorted_sets_Permutation cache :
  sorted_sets cache ≡ₚ map_to_list (sets cache).
Proof. apply merge_sort_Permutation. Qed.

Lemma elem_of_sorted_sets cache k blocks :
  (k, blocks) ∈ sorted_sets cache ↔ sets cache !! k = Some blocks.
Proof. rewrite sorted_sets_Permutation. apply elem_of_map_to_list. Qed.

Lemma length_sorted_sets cache :
  length (sorted_sets cache) = size (sets cache).
Proof. rewrite sorted_sets_Permutation. by rewrite length_map_to_list. Qed.

Lemma foldl_max_spec (a : nat) (l : list nat) :
  (a ≤ foldl Nat.max a l)%nat
  ∧ (∀ y, y ∈ l → (y ≤ foldl Nat.max a l)%nat)
  ∧ (foldl Nat.max a l = a ∨ foldl Nat.max a l ∈ l).
Proof.
  revert a. induction l as [|x l IH]; intros a; simpl.
  - split; [lia|]. split; [|by left].
    intros y Hy. by apply elem_of_nil in Hy.
  - destruct (IH (Nat.max a x)) as (H1 & H2 & H3).
    split; [lia|]. split.
    + intros y [->|Hy]%elem_of_cons; [lia | by apply H2].
    + destruct H3 as [H3|H3].
      * rewrite H3. destruct (Nat.max_dec a x) as [Hm|Hm]; rewrite Hm.
        -- by left.
        -- right. apply list_elem_of_here.
      * right. by apply list_elem_of_further.
Qed.

Lemma max_len_Ok (ls : list (list Block)) (m : nat) :
  max_len ls = Ok m →
  (∀ x, x ∈ ls → (length x ≤ m)%nat) ∧ ∃ x, x ∈ ls ∧ length x = m.
Proof.
  destruct ls as [|x xs]; simpl; [done|]. intros [= <-].
  destruct (foldl_max_spec (length x) (length <$> xs)) as (H1 & H2 & H3).
  split.
  - intros y [->|Hy]%elem_of_cons; [done|].
    apply H2, list_elem_of_fmap. eauto.
  - destruct H3 as [H3|H3].
    + exists x. split; [apply list_elem_of_here | done].
    + apply list_elem_of_fmap in H3 as (y & Hy & Hin).
      exists y. split; [by apply list_elem_of_further | done].
Qed.

Lemma display_cache_Ok cache w t :
  display_cache cache w = Ok t →
  ∃ m, max_len ((sorted_sets cache).*2) = Ok m
       ∧ rows t = (fun i => block_cell i <$> (sorted_sets cache).*2) <$> seq 0 m
       ∧ num_cols t
         = (if bool_decide (1 < Z.of_nat (size (sets cache)))%Z
            then Z.of_nat (size (sets cache)) else 1%Z)
       ∧ header t
         = (if bool_decide (1 < Z.of_nat (size (sets cache)))%Z
            then (sorted_sets cache).*1 else ["Set"]).
Proof.
  unfold display_cache. intros H.
  apply bind_Ok in H as (m & Hm & H). exists m. split; [done|].
  rewrite length_fmap, length_sorted_sets in H. by simplify_eq.
Qed.

End Display.

(** Property X27. A cache without any set cannot be displayed:
    [display_cache] takes the maximum of the lengths of the sets and
    raises [ValueError] when there is none. *)
Theorem display_cache_no_sets (cache : Cache) (w : Z) :
  sets cache = ∅ →
  display_cache cache w = Raise ValueError.
Proof.
  intros He. unfold display_cache, sorted_sets.
  by rewrite He, map_to_list_empty.
Qed.

(** The statement above, at a concrete store. *)
Lemma display_cache_no_sets_witness :
  sets (Cache_init 0 0 false) = ∅
  ∧ display_cache (Cache_init 0 0 false) 80 = Raise ValueError.
Proof.
  split; [reflexivity|].
  apply (display_cache_no_sets (Cache_init 0 0 false) 80). reflexivity.
Defined.

(** Property X28. The table of a cache that has sets is rectangular:
    [display_cache] completes, the table has one column per set, the
    header and every row have that many entries, and there are as many
    rows as the largest set has blocks. *)
Theorem display_cache_rectangular (cache : Cache) (w : Z) :
  sets cache ≠ ∅ →
  ∃ t,
    display_cache cache w = Ok t
    ∧ num_cols t = Z.of_nat (size (sets cache))
    ∧ Z.of_nat (length (header t)) = num_cols t
    ∧ Forall (fun row => Z.of_nat (length row) = num_cols t) (rows t)
    ∧ (∀ k blocks, sets cache !! k = Some blocks →
                   (length blocks ≤ length (rows t))%nat)
    ∧ ∃ k blocks, sets cache !! k = Some blocks
                  ∧ length blocks = length (rows t).
Proof.
  intros Hne.
  assert (size (sets cache) ≠ 0%nat) as Hsize.
  { intros Hs. by apply map_size_empty_iff in Hs. }
  destruct (display_cache cache w) as [t|e] eqn:Hd.
  - exists t. split; [done|].
    destruct (display_cache_Ok _ _ _ Hd) as (m & Hm & Hrows & Hcols & Hhead).
    destruct (max_len_Ok _ _ Hm) as [Hle Hmax].
    assert (num_cols t = Z.of_nat (size (sets cache))) as Hc.
    { rewrite Hcols. case_bool_decide; lia. }
    split; [done|]. split; [|split; [|split]].
    + rewrite Hhead, Hc. case_bool_decide; simpl.
      * by rewrite length_fmap, length_sorted_sets.
      * lia.
    + rewrite Hrows, Hc. apply Forall_fmap, Forall_forall. intros i _. simpl.
      by rewrite !length_fmap, length_sorted_sets.
    + intros k blocks Hk. rewrite Hrows, length_fmap, length_seq.
      apply Hle, list_elem_of_fmap. exists (k, blocks).
      split; [done|]. by apply elem_of_sorted_sets.
    + destruct Hmax as (x & Hx & Hlen).
      apply list_elem_of_fmap in Hx as ([k blocks] & -> & Hin).
      exists k, blocks. split; [by apply elem_of_sorted_sets|].
      by rewrite Hrows, length_fmap, length_seq.
  - exfalso. unfold display_cache in Hd.
    destruct (sorted_sets cache) as [|x xs] eqn:Hs; [|done].
    pose proof (length_sorted_sets cache) as Hl. rewrite Hs in Hl. simpl in Hl.
    lia.
Qed.

(** The statement above, at a concrete store. *)
Lemma display_cache_rectangular_witness :
  ∃ t,
    display_cache direct_demo_l1 80 = Ok t
    ∧ num_cols t = 4%Z
    ∧ header t = ["00"; "01"; "10"; "11"]
    ∧ rows t = [["0"; EmptyString; EmptyString; EmptyString]]
    ∧ Forall (fun row => Z.of_nat (length row) = num_cols t) (rows t).
Proof.
  destruct (display_cache_rectangular direct_demo_l1 80)
    as (t & Ht & _ & _ & Hrows & _).
  - intros He. apply (f_equal (fun m => m !! "00")) in He.
    vm_compute in He. discriminate.
  - exists t. assert (Ok t = display_cache direct_demo_l1 80) as Heq by done.
    vm_compute in Heq. injection Heq as ->.
    split; [exact Ht|]. split; [reflexivity|]. split; [reflexivity|].
    split; [reflexivity|]. exact Hrows.
Defined.

(** Property X29. What the table shows: the sets appear in the order of
    their keys, each under its key as header when the cache has more than
    one set, and in row [i] the cell of a set shows the words of its
    block [i], joined by commas, or nothing when the set has no block
    [i]. *)
Theorem display_cache_cells (cache : Cache) (w : Z) (t : Table)
    (i j : nat) (row : list string) (k : string) (blocks : list Block) :
  display_cache cache w = Ok t →
  rows t !! i = Some row →
  sorted_sets cache !! j = Some (k, blocks) →
  Sorted key_le (sorted_sets cache)
  ∧ sets cache !! k = Some blocks
  ∧ ((1 < size (sets cache))%nat → header t !! j = Some k)
  ∧ row !! j = Some (match blocks !! i with
                     | Some b => String.concat "," (pretty <$> block_data b)
                     | None => EmptyString
                     end).
Proof.
  intros Hd Hi Hj.
  destruct (display_cache_Ok _ _ _ Hd) as (m & _ & Hrows & _ & Hhead).
  split; [apply sorted_sets_Sorted|].
  split; [|split].
  - apply elem_of_sorted_sets, list_elem_of_lookup. eauto.
  - intros Hsz. rewrite Hhead, bool_decide_eq_true_2 by lia.
    by rewrite list_lookup_fmap, Hj.
  - rewrite Hrows in Hi. apply list_lookup_fmap_Some in Hi as (i' & Hrow & Hi').
    apply lookup_seq in Hi' as [-> _]. subst row. simpl.
    by rewrite !list_lookup_fmap, Hj.
Qed.

(** The statement above, at a concrete store. *)
Lemma display_cache_cells_witness :
  ∃ t row,
    display_cache lru_demo_l2 80 = Ok t
    ∧ rows t !! 1%nat = Some row
    ∧ sorted_sets lru_demo_l2 !! 0%nat
      = Some ("0", [blk "101" 5; blk "110" 6])
    ∧ row !! 0%nat = Some "6".
Proof.
  eexists _, _. split; [vm_compute; reflexivity|].
  split; [reflexivity|]. split; [vm_compute; reflexivity|].
  eapply (display_cache_cells lru_demo_l2 80 _ 1%nat 0%nat _ "0"
            [blk "101" 5; blk "110" 6]).
  - vm_compute; reflexivity.
  - reflexivity.
  - vm_compute; reflexivity.
Defined.
